(** * Poem-Recommender-V2: the author-name resolution layer

    A shallow embedding of [utils/author_matcher.py] and [utils/intent.py],
    together with the part of CPython's [difflib.SequenceMatcher] that
    [AuthorMatcher.calculate_similarity] calls, and the properties of the
    specification that are about them.

    Conventions of the embedding:
    - a Python [str] is the list of its code points ([list N]);
    - a similarity score is the rational [2 * M / T] that
      [SequenceMatcher.ratio] rounds to a float; thresholds are rationals,
      and comparisons are the exact ones on [Q];
    - a Python [dict] is a [gmap]; a Python exception is a [Raise] result;
    - [unicodedata.normalize('NFKD', _)] and [str.lower] read the Unicode
      character database: they are the two fields of the class [Unicode],
      so that every general theorem holds for whatever tables the
      interpreter ships.  The instance [ucd_fragment] gives them on Basic
      Latin and on the Russian alphabet, where the examples live. *)

From Stdlib Require Import ZArith QArith Lqa Ascii String Permutation Sorted.
From stdpp Require Import base option list gmap sorting.

Abbreviation str := (list N).

(** ** Python values and exceptions *)

Inductive exn := IndexError | JSONDecodeError.

Inductive result (A : Type) :=
  | Ok (a : A)
  | Raise (e : exn).
Arguments Ok {A} a.
Arguments Raise {A} e.

#[global] Instance result_ret : MRet result := fun A a => Ok a.

#[global] Instance result_bind : MBind result := fun A B k r =>
  match r with
  | Ok a => k a
  | Raise e => Raise e
  end.

#[global] Instance exn_eq_dec : EqDecision exn.
Proof. solve_decision. Defined.

(** ** String literals

    Source literals are written as they appear in the Python files; [u]
    decodes the UTF-8 bytes of a literal into code points. *)

Fixpoint utf8_decode (bs : list N) : str :=
  match bs with
  | [] => []
  | b0 :: r0 =>
    if (b0 <? 0x80)%N then b0 :: utf8_decode r0
    else match r0 with
    | [] => [b0]
    | b1 :: r1 =>
      if (b0 <? 0xE0)%N then
        ((b0 - 0xC0) * 64 + (b1 - 0x80))%N :: utf8_decode r1
      else match r1 with
      | [] => [b0]
      | b2 :: r2 =>
        if (b0 <? 0xF0)%N then
          ((b0 - 0xE0) * 4096 + (b1 - 0x80) * 64 + (b2 - 0x80))%N
            :: utf8_decode r2
        else match r2 with
        | [] => [b0]
        | b3 :: r3 =>
          ((b0 - 0xF0) * 262144 + (b1 - 0x80) * 4096
           + (b2 - 0x80) * 64 + (b3 - 0x80))%N :: utf8_decode r3
        end
      end
    end
  end.

Definition u (s : string) : str :=
  utf8_decode (N_of_ascii <$> list_ascii_of_string s).

(** ** The [str] methods the two modules use *)

Module PyStr.

(** [c.isspace()] for one character; also the separator test of
    [str.split()] and [str.strip()] without arguments. *)
Definition isspace (c : N) : bool :=
  ((0x09 <=? c) && (c <=? 0x0D) || (0x1C <=? c) && (c <=? 0x20)
   || (c =? 0x85) || (c =? 0xA0) || (c =? 0x1680)
   || (0x2000 <=? c) && (c <=? 0x200A)
   || (c =? 0x2028) || (c =? 0x2029) || (c =? 0x202F)
   || (c =? 0x205F) || (c =? 0x3000))%N.

(** [s.split()]: the maximal runs of non-whitespace characters.  [cur] is
    the word being read, most recent character first. *)
Fixpoint split_aux (cur : str) (s : str) : list str :=
  match s with
  | [] => if cur is [] then [] else [reverse cur]
  | c :: s' =>
    if isspace c
    then (if cur is [] then split_aux [] s'
          else reverse cur :: split_aux [] s')
    else split_aux (c :: cur) s'
  end.

Definition split (s : str) : list str := split_aux [] s.

(** [sep.join(parts)] *)
Fixpoint join (sep : str) (parts : list str) : str :=
  match parts with
  | [] => []
  | [p] => p
  | p :: ps => p ++ sep ++ join sep ps
  end.






(** [s.startswith(p)] and [s.endswith(p)] *)
Fixpoint startswith (s p : str) : bool :=
  match p, s with
  | [], _ => true
  | _ :: _, [] => false
  | x :: p', c :: s' => (x =? c)%N && startswith s' p'
  end.


(** [p in s] *)
Fixpoint contains (s p : str) : bool :=
  startswith s p ||
  match s with
  | [] => false
  | _ :: s' => contains s' p
  end.


(** [parts[-1]] *)
Definition last (parts : list str) : result str :=
  match List.last (Some <$> parts) None with
  | Some p => Ok p
  | None => Raise IndexError
  end.

End PyStr.

(** A word: a non-empty string without whitespace. *)
Definition is_word (w : str) : Prop :=
  w <> [] /\ forallb (fun c => negb (PyStr.isspace c)) w = true.

(** ** [list.sort]

    Python's sort is stable: among elements that compare equal the order of
    the input is kept.  [le x y] is [not (y < x)] on the sort keys. *)

Section Sort.
Context {A : Type} (le : A -> A -> bool).

Fixpoint insert_by (x : A) (l : list A) : list A :=
  match l with
  | [] => [x]
  | y :: l' => if le x y then x :: l else y :: insert_by x l'
  end.

Definition sort_by (l : list A) : list A := foldr insert_by [] l.
End Sort.

(** [l[:k]] for a Python integer [k]: a negative [k] counts from the end. *)
Definition slice_to {A} (l : list A) (k : Z) : list A :=
  if decide (0 ≤ k)%Z then take (Z.to_nat k) l
  else take (Z.to_nat (Z.of_nat (length l) + k)) l.

(** ** The Unicode tables *)

Class Unicode := {
  (** [unicodedata.normalize('NFKD', s)] *)
  nfkd : str -> str;
  (** [s.lower()] *)
  lower : str -> str;
}.

(** ** [difflib.SequenceMatcher(None, a, b)]

    The matcher is built with [isjunk = None] and the default
    [autojunk = True]: [bjunk] is empty, and the elements of [b] that
    occur more than [len(b) // 100 + 1] times are dropped from [b2j] when
    [len(b) >= 200].  Indices are natural numbers. *)

Module difflib.

(** [Match(a, b, size)] *)
Record Match := mkMatch { m_a : nat; m_b : nat; m_size : nat }.

(** [__chain_b]: the table of the positions of each element of [b], and
    the purge of the popular ones. *)
Definition chain_b_index (b : str) : gmap N (list nat) :=
  foldl (fun b2j '(i, elt) => <[elt := default [] (b2j !! elt) ++ [i]]> b2j)
        ∅ (imap pair b).

Definition chain_b (b : str) : gmap N (list nat) :=
  let b2j := chain_b_index b in
  let n := length b in
  if decide (200 ≤ n)
  then let ntest := n `div` 100 + 1 in
       filter (fun kv => ¬ (ntest < length kv.2)) b2j
  else b2j.

(** [b2j.get(a[i], nothing)] *)
Definition b2j_get (b2j : gmap N (list nat)) (a : str) (i : nat) : list nat :=
  match a !! i with
  | Some elt => default [] (b2j !! elt)
  | None => []
  end.

(** [j2len.get(j - 1, 0)]: no key is negative, so [j = 0] reads the
    default. *)
Definition j2len_get (j2len : gmap nat nat) (j : nat) : nat :=
  match j with
  | O => 0
  | S j' => default 0 (j2len !! j')
  end.

(** The body of [for j in b2j.get(a[i], nothing)] in
    [find_longest_match], with its [continue] and [break]. *)
Fixpoint scan_row (i blo bhi : nat) (j2len : gmap nat nat) (js : list nat)
    (newj2len : gmap nat nat) (best : Match) : gmap nat nat * Match :=
  match js with
  | [] => (newj2len, best)
  | j :: js' =>
    if decide (j < blo) then scan_row i blo bhi j2len js' newj2len best
    else if decide (bhi ≤ j) then (newj2len, best)
    else
      let k := j2len_get j2len j + 1 in
      let best' :=
        if decide (m_size best < k)
        then mkMatch (i + 1 - k) (j + 1 - k) k
        else best in
      scan_row i blo bhi j2len js' (<[j := k]> newj2len) best'
  end.

(** [for i in range(alo, ahi)]: the longest junk-free match. *)
Definition scan_rows (a : str) (b2j : gmap N (list nat))
    (alo ahi blo bhi : nat) : gmap nat nat * Match :=
  foldl (fun '(j2len, best) i =>
           scan_row i blo bhi j2len (b2j_get b2j a i) ∅ best)
        (∅, mkMatch alo blo 0) (seq alo (ahi - alo)).

(** [while besti > alo and bestj > blo and a[besti-1] == b[bestj-1]] *)
Fixpoint extend_left (a b : str) (alo blo besti bestj bestsize : nat)
    : Match :=
  match besti, bestj with
  | S i', S j' =>
    if decide (alo < besti ∧ blo < bestj ∧ a !! i' = b !! j')
    then extend_left a b alo blo i' j' (S bestsize)
    else mkMatch besti bestj bestsize
  | _, _ => mkMatch besti bestj bestsize
  end.

(** [while besti+bestsize < ahi and bestj+bestsize < bhi and
    a[besti+bestsize] == b[bestj+bestsize]]; [gap] counts the positions
    left before [ahi]. *)
Fixpoint extend_right (a b : str) (bhi besti bestj gap bestsize : nat)
    : nat :=
  match gap with
  | O => bestsize
  | S gap' =>
    if decide (bestj + bestsize < bhi
               ∧ a !! (besti + bestsize) = b !! (bestj + bestsize))
    then extend_right a b bhi besti bestj gap' (S bestsize)
    else bestsize
  end.

(** [find_longest_match(alo, ahi, blo, bhi)].  With an empty [bjunk] the
    two loops that extend the match by junk elements never iterate. *)
Definition find_longest_match (a b : str) (b2j : gmap N (list nat))
    (alo ahi blo bhi : nat) : Match :=
  let best := (scan_rows a b2j alo ahi blo bhi).2 in
  let best := extend_left a b alo blo (m_a best) (m_b best) (m_size best) in
  let size := extend_right a b bhi (m_a best) (m_b best)
                (ahi - (m_a best + m_size best)) (m_size best) in
  mkMatch (m_a best) (m_b best) size.

(** The [while queue] loop of [get_matching_blocks].  The queue is a
    stack: its head is the entry [queue.pop()] returns.  [None] when
    [fuel] iterations were not enough. *)
Fixpoint blocks_loop (a b : str) (b2j : gmap N (list nat)) (fuel : nat)
    (queue : list (nat * nat * nat * nat)) (matching_blocks : list Match)
    : option (list Match) :=
  match queue with
  | [] => Some matching_blocks
  | (alo, ahi, blo, bhi) :: queue =>
    match fuel with
    | O => None
    | S fuel =>
      let x := find_longest_match a b b2j alo ahi blo bhi in
      let '(i, j, k) := (m_a x, m_b x, m_size x) in
      if decide (k = 0) then blocks_loop a b b2j fuel queue matching_blocks
      else
        let queue :=
          if decide (alo < i ∧ blo < j)
          then (alo, i, blo, j) :: queue else queue in
        let queue :=
          if decide (i + k < ahi ∧ j + k < bhi)
          then (i + k, ahi, j + k, bhi) :: queue else queue in
        blocks_loop a b b2j fuel queue (matching_blocks ++ [x])
    end
  end.

(** [matching_blocks.sort()]: tuples compare lexicographically. *)
Definition match_le (x y : Match) : bool :=
  (m_a x <? m_a y) ||
  (m_a x =? m_a y) && ((m_b x <? m_b y) ||
                       (m_b x =? m_b y) && (m_size x <=? m_size y)).

Definition sort (l : list Match) : list Match := sort_by match_le l.

(** The loop that collapses adjacent blocks; [(i1, j1, k1)] is the block
    being grown. *)
Fixpoint collapse (i1 j1 k1 : nat) (blocks : list Match) : list Match :=
  match blocks with
  | [] => if decide (k1 = 0) then [] else [mkMatch i1 j1 k1]
  | x :: blocks' =>
    if decide (i1 + k1 = m_a x ∧ j1 + k1 = m_b x)
    then collapse i1 j1 (k1 + m_size x) blocks'
    else (if decide (k1 = 0) then [] else [mkMatch i1 j1 k1])
           ++ collapse (m_a x) (m_b x) (m_size x) blocks'
  end.

(** [get_matching_blocks()].  Every iteration that finds a block splits
    its range into two shorter ones, so [2 * len(a) + 1] iterations
    empty the queue ([blocks_loop_terminates] below); the second branch
    is never taken. *)
Definition get_matching_blocks (a b : str) : list Match :=
  let la := length a in
  let lb := length b in
  match blocks_loop a b (chain_b b) (2 * la + 1) [(0, la, 0, lb)] [] with
  | Some matching_blocks =>
    collapse 0 0 0 (sort matching_blocks) ++ [mkMatch la lb 0]
  | None => []
  end.

(** [_calculate_ratio(matches, length)] *)
Definition calculate_ratio (matches length : nat) : Q :=
  if decide (length = 0) then 1
  else Qmake (2 * Z.of_nat matches) (Pos.of_nat length).

(** [ratio()] *)
Definition ratio (a b : str) : Q :=
  let matches := sum_list (m_size <$> get_matching_blocks a b) in
  calculate_ratio matches (length a + length b).

(** *** Notions for the proofs about [find_longest_match]

    A match inside the range it was looked for in, the bound on the
    lengths kept in [j2len] when row [i] starts, and the measure of the
    queue of [get_matching_blocks]. *)

Definition within (alo ahi blo bhi : nat) (m : Match) : Prop :=
  alo <= m_a m /\ m_a m + m_size m <= ahi
  /\ blo <= m_b m /\ m_b m + m_size m <= bhi.

Definition row_bound (alo blo i : nat) (j2len : gmap nat nat) : Prop :=
  forall j v, j2len !! j = Some v -> v + alo <= i /\ v + blo <= S j.

Definition range_ok (r : nat * nat * nat * nat) : Prop :=
  let '(alo, ahi, blo, bhi) := r in alo <= ahi /\ blo <= bhi.

Fixpoint queue_weight (queue : list (nat * nat * nat * nat)) : nat :=
  match queue with
  | [] => 0
  | (alo, ahi, _, _) :: queue => 2 * (ahi - alo) + 1 + queue_weight queue
  end.

(** The positions of [c] in [b], in increasing order: the value
    [__chain_b] builds for the key [c]. *)
Definition positions (b : str) (c : N) : list nat :=
  filter (fun j => b !! j = Some c) (seq 0 (length b)).

(** The number of consecutive positions just before [i] whose element is
    still a key of [b2j]. *)
Fixpoint run (b2j : gmap N (list nat)) (x : str) (i : nat) : nat :=
  match i with
  | O => 0
  | S i' => if b2j_get b2j x i' is [] then 0 else S (run b2j x i')
  end.

(** What holds of [(j2len, best)] when row [i] of
    [find_longest_match(0, len(x), 0, len(x))] starts and both sequences
    are [x]: the best match lies on the diagonal. *)
Definition diagonal (b2j : gmap N (list nat)) (x : str) (i : nat)
    (st : gmap nat nat * Match) : Prop :=
  (forall j v, st.1 !! j = Some v ->
     v <= run b2j x i /\ v <= run b2j x (S j))
  /\ j2len_get st.1 i = run b2j x i
  /\ m_a st.2 = m_b st.2
  /\ m_a st.2 + m_size st.2 <= i
  /\ (forall i', i' <= i -> run b2j x i' <= m_size st.2).

(** The total size of a list of blocks, and the room the ranges of the
    queue leave in each of the two sequences. *)
Definition blocks_size (blocks : list Match) : nat :=
  sum_list (m_size <$> blocks).

Fixpoint queue_room_a (queue : list (nat * nat * nat * nat)) : nat :=
  match queue with
  | [] => 0
  | (alo, ahi, _, _) :: queue => (ahi - alo) + queue_room_a queue
  end.

Fixpoint queue_room_b (queue : list (nat * nat * nat * nat)) : nat :=
  match queue with
  | [] => 0
  | (_, _, blo, bhi) :: queue => (bhi - blo) + queue_room_b queue
  end.

End difflib.

(** ** [utils/author_matcher.py] *)

(** [TRANSLIT_MAP], in the order of the source. *)
Definition TRANSLIT_MAP : list (str * str) :=
  [ (u "shch", u "щ"); (u "sh", u "ш"); (u "ch", u "ч"); (u "zh", u "ж");
    (u "kh", u "х"); (u "ts", u "ц");
    (u "yu", u "ю"); (u "ya", u "я"); (u "yo", u "ё"); (u "ye", u "е");
    (u "a", u "а"); (u "b", u "б"); (u "v", u "в"); (u "g", u "г");
    (u "d", u "д"); (u "e", u "е");
    (u "z", u "з"); (u "i", u "и"); (u "j", u "й"); (u "k", u "к");
    (u "l", u "л"); (u "m", u "м");
    (u "n", u "н"); (u "o", u "о"); (u "p", u "п"); (u "r", u "р");
    (u "s", u "с"); (u "t", u "т");
    (u "u", u "у"); (u "f", u "ф"); (u "y", u "ы"); (u "w", u "в") ].

(** The small Latin letters: with them every key of [TRANSLIT_MAP]
    starts. *)
Definition latin_small (c : N) : bool := ((0x61 <=? c) && (c <=? 0x7A))%N.

(** [d.get(key)] on a literal dictionary kept as its list of items (the
    keys of the literals of this module are pairwise distinct). *)
Definition dict_get (d : list (str * str)) (key : str) : option str :=
  snd <$> List.find (fun kv => bool_decide (kv.1 = key)) d.

(** A value of the translation table: a JSON object that may or may not
    have the keys ["en"] and ["variants"]. *)
Record trans_data := mkTrans {
  en : option str;
  variants : option (list str);
}.

(** The attributes of an [AuthorMatcher]. *)
Record AuthorMatcher := mkMatcher {
  authors : list str;
  translation_db : gmap str trans_data;
}.

(** What [translation_db_path] may name: no file, a file [json.load]
    reads, or a file it rejects. *)
Inductive stored :=
  | Missing
  | Loadable (content : gmap str trans_data)
  | Corrupt.

(** [(best_score, best_match)], the running best of [match_author]. *)
Record running := mkRunning {
  best_score : Q;
  best_match : option str;
}.

(** [max(x, y)] of Python: [y] only when it is strictly greater. *)
Definition pymax (x y : Q) : Q := if Qlt_le_dec x y then y else x.

Section author_matcher.
Context `{Unicode}.

(** The first of the lengths 4, 3, 2, 1 for which
    [text[i:i+length]] is a key of [TRANSLIT_MAP]; [rest] is [text[i:]]. *)
Definition translit_at (rest : str) : option (nat * str) :=
  let try (n : nat) : option (nat * str) :=
    if decide (n ≤ length rest)
    then pair n <$> dict_get TRANSLIT_MAP (take n rest)
    else None in
  match try 4 with
  | Some r => Some r
  | None =>
    match try 3 with
    | Some r => Some r
    | None =>
      match try 2 with
      | Some r => Some r
      | None => try 1
      end
    end
  end.

(** The [while i < len(text)] loop; every iteration advances [i], so
    [len(text)] iterations are enough ([translit_loop_fuel] below). *)
Fixpoint translit_loop (fuel : nat) (rest : str) : str :=
  match fuel, rest with
  | S fuel, c :: rest' =>
    match translit_at rest with
    | Some (n, ru) => ru ++ translit_loop fuel (drop n rest)
    | None => c :: translit_loop fuel rest'
    end
  | _, _ => []
  end.

Definition transliterate_to_russian (text : str) : str :=
  let text := lower text in
  translit_loop (length text) text.

(** [_transliterate_to_english] *)
Definition _transliterate_to_english (russian_name : str)
    (mapping : list (str * str)) : str :=
  let parts := PyStr.split russian_name in
  let english_parts :=
    (fun part => default part (dict_get mapping part)) <$> parts in
  PyStr.join (u " ") english_parts.

Definition common_translations : list (str * str) :=
  [ (u "Пушкин", u "Pushkin"); (u "Александр", u "Alexander");
    (u "Лермонтов", u "Lermontov"); (u "Михаил", u "Mikhail");
    (u "Ахматова", u "Akhmatova"); (u "Анна", u "Anna");
    (u "Блок", u "Blok"); (u "Есенин", u "Yesenin");
    (u "Сергей", u "Sergey"); (u "Цветаева", u "Tsvetaeva");
    (u "Марина", u "Marina"); (u "Маяковский", u "Mayakovsky");
    (u "Владимир", u "Vladimir"); (u "Пастернак", u "Pasternak");
    (u "Борис", u "Boris"); (u "Тютчев", u "Tyutchev");
    (u "Фёдор", u "Fyodor"); (u "Фет", u "Fet");
    (u "Афанасий", u "Afanasy"); (u "Некрасов", u "Nekrasov");
    (u "Николай", u "Nikolai"); (u "Бродский", u "Brodsky");
    (u "Иосиф", u "Joseph"); (u "Мандельштам", u "Mandelstam");
    (u "Осип", u "Osip") ].

(** [_build_translation_map]: the loop over [self.authors], started from
    the table [db]. *)
Definition _build_translation_map (author_list : list str)
    (db : gmap str trans_data) : gmap str trans_data :=
  foldl (fun db author =>
           match db !! author with
           | Some _ => db
           | None =>
             let english_name :=
               _transliterate_to_english author common_translations in
             <[author := mkTrans (Some english_name) (Some [english_name])]> db
           end)
        db author_list.

(** [__init__]: [translation_db_path] is [None] or a path, and [fs] tells
    what a path names. *)
Definition __init__ {Path : Type} (fs : Path -> stored)
    (author_list : list str) (translation_db_path : option Path)
    : result AuthorMatcher :=
  let synthesized :=
    mkMatcher author_list (_build_translation_map author_list ∅) in
  match translation_db_path with
  | None => Ok synthesized
  | Some p =>
    match fs p with
    | Missing => Ok synthesized
    | Loadable content => Ok (mkMatcher author_list content)
    | Corrupt => Raise JSONDecodeError
    end
  end.

(** [normalize_text] *)
Definition normalize_text (text : str) : str :=
  let text := nfkd text in
  let text := lower text in
  PyStr.join (u " ") (PyStr.split text).

(** [calculate_similarity] *)
Definition calculate_similarity (str1 str2 : str) : Q :=
  let str1_norm := normalize_text str1 in
  let str2_norm := normalize_text str2 in
  difflib.ratio str1_norm str2_norm.

(** [if score > best_score: best_score = score; best_match = author] *)
Definition consider (author : str) (st : running) (score : Q) : running :=
  if Qlt_le_dec (best_score st) score
  then mkRunning score (Some author)
  else st.

(** [author.split()[-1] if ' ' in author else author] *)
Definition author_surname (author : str) : result str :=
  if PyStr.contains author (u " ")
  then PyStr.last (PyStr.split author)
  else Ok author.

(** [all(ord(c) < 128 or c.isspace() for c in query)] *)
Definition is_english (query : str) : bool :=
  forallb (fun c => (c <? 128)%N || PyStr.isspace c) query.

(** The strategies of [match_author] for one author, in the order of the
    body of the loop. *)

(** transliterated query against the first and the last part *)
Definition step_translit (transliterated_query : option str)
    (author : str) (st : running) : running :=
  match transliterated_query with
  | Some (_ :: _ as tq) =>
    match PyStr.split author with
    | [] => st
    | p0 :: ps =>
      foldl (fun st ru_part =>
               let ru_part_norm := normalize_text ru_part in
               consider author st (calculate_similarity tq ru_part_norm))
            st [p0; List.last ps p0]
    end
  | _ => st
  end.

(** Russian name (full) *)
Definition step_full (query author : str) (st : running) : running :=
  consider author st (calculate_similarity query author).

(** Russian surname (first word) *)
Definition step_ru_surname (query author : str) (st : running) : running :=
  match PyStr.split author with
  | [] => st
  | ru_surname :: _ =>
    consider author st (calculate_similarity query ru_surname)
  end.

(** English translations: main name, its first word, the variants *)
Definition step_english (db : gmap str trans_data) (query author : str)
    (st : running) : running :=
  match db !! author with
  | None => st
  | Some td =>
    let st :=
      match en td with
      | None => st
      | Some en_name =>
        let st := consider author st (calculate_similarity query en_name) in
        match PyStr.split en_name with
        | [] => st
        | en_surname :: _ =>
          consider author st (calculate_similarity query en_surname)
        end
      end in
    foldl (fun st variant =>
             consider author st (calculate_similarity query variant))
          st (default [] (variants td))
  end.

(** surname only (last word) *)
Definition step_surname (query author : str) (st : running)
    : result running :=
  surname ← author_surname author;
  let surname_score := calculate_similarity query surname in
  mret (if Qlt_le_dec 0.8%Q surname_score
        then (if Qlt_le_dec (best_score st) surname_score
              then mkRunning surname_score (Some author)
              else st)
        else st).

(** The body of [for author in self.authors] *)
Definition match_author_step (db : gmap str trans_data) (query : str)
    (transliterated_query : option str) (st : running) (author : str)
    : result running :=
  let st := step_translit transliterated_query author st in
  let st := step_full query author st in
  let st := step_ru_surname query author st in
  let st := step_english db query author st in
  step_surname query author st.

Fixpoint match_author_loop (db : gmap str trans_data) (query : str)
    (transliterated_query : option str) (st : running)
    (author_list : list str) : result running :=
  match author_list with
  | [] => Ok st
  | author :: rest =>
    st ← match_author_step db query transliterated_query st author;
    match_author_loop db query transliterated_query st rest
  end.

(** [transliterated_query]: [None] unless the query [is_english] *)
Definition transliterated (query : str) : option str :=
  let query_norm := normalize_text query in
  if is_english query
  then Some (transliterate_to_russian query_norm)
  else None.

(** [match_author] (the [debug] prints are left out) *)
Definition match_author (self : AuthorMatcher) (query : str)
    (threshold : Q) : result (option str) :=
  let transliterated_query := transliterated query in
  st ← match_author_loop (translation_db self) query transliterated_query
         (mkRunning threshold None) (authors self);
  mret (best_match st).

(** [max_score] of one author in [find_all_matches], before the
    surname is looked at: the full name and the translations *)
Definition named_max_score (db : gmap str trans_data) (query author : str)
    : Q :=
  let max_score := 0%Q in
  let max_score := pymax max_score (calculate_similarity query author) in
  match db !! author with
  | None => max_score
  | Some td =>
    let max_score :=
      match en td with
      | None => max_score
      | Some en_name =>
        pymax max_score (calculate_similarity query en_name)
      end in
    foldl (fun max_score variant =>
             pymax max_score (calculate_similarity query variant))
          max_score (default [] (variants td))
  end.

(** [max_score] of one author in [find_all_matches] *)
Definition author_max_score (db : gmap str trans_data) (query author : str)
    : result Q :=
  let max_score := named_max_score db query author in
  surname ← author_surname author;
  let score := calculate_similarity query surname in
  mret (if Qlt_le_dec 0.8%Q score then pymax max_score score else max_score).

Fixpoint find_all_matches_loop (db : gmap str trans_data) (query : str)
    (threshold : Q) (matches : list (str * Q)) (author_list : list str)
    : result (list (str * Q)) :=
  match author_list with
  | [] => Ok matches
  | author :: rest =>
    max_score ← author_max_score db query author;
    let matches :=
      if Qlt_le_dec max_score threshold then matches
      else matches ++ [(author, max_score)] in
    find_all_matches_loop db query threshold matches rest
  end.

(** [matches.sort(key=lambda x: -x[1])] *)
Definition sort_matches (matches : list (str * Q)) : list (str * Q) :=
  sort_by (fun x y => Qle_bool (- x.2) (- y.2)) matches.

(** [find_all_matches] *)
Definition find_all_matches (self : AuthorMatcher) (query : str)
    (threshold : Q) (top_k : Z) : result (list (str * Q)) :=
  matches ← find_all_matches_loop (translation_db self) query threshold []
              (authors self);
  mret (slice_to (sort_matches matches) top_k).

(** [get_english_name] *)
Definition get_english_name (self : AuthorMatcher) (russian_author : str)
    : str :=
  match translation_db self !! russian_author with
  | Some td => default russian_author (en td)
  | None => russian_author
  end.

(** *** The scores that compete for the running best

    The lists below name what the body of the loop of [match_author]
    compares with [best_score] when it examines [author], in that order;
    [match_author_step_scores] relates them to the code.  The surname-only
    score is in the list only when it is above 0.8. *)

Definition translit_scores (transliterated_query : option str)
    (author : str) : list Q :=
  match transliterated_query with
  | Some (_ :: _ as tq) =>
    match PyStr.split author with
    | [] => []
    | p0 :: ps =>
      [ calculate_similarity tq (normalize_text p0);
        calculate_similarity tq (normalize_text (List.last ps p0)) ]
    end
  | _ => []
  end.

Definition ru_surname_scores (query author : str) : list Q :=
  match PyStr.split author with
  | [] => []
  | ru_surname :: _ => [calculate_similarity query ru_surname]
  end.

Definition english_scores (db : gmap str trans_data) (query author : str)
    : list Q :=
  match db !! author with
  | None => []
  | Some td =>
    match en td with
    | None => []
    | Some en_name =>
      calculate_similarity query en_name ::
      match PyStr.split en_name with
      | [] => []
      | en_surname :: _ => [calculate_similarity query en_surname]
      end
    end ++ (calculate_similarity query <$> default [] (variants td))
  end.

Definition surname_scores (query author : str) : result (list Q) :=
  surname ← author_surname author;
  let surname_score := calculate_similarity query surname in
  mret (if Qlt_le_dec 0.8%Q surname_score then [surname_score] else []).

Definition candidate_scores (db : gmap str trans_data) (query : str)
    (transliterated_query : option str) (author : str) : result (list Q) :=
  gated ← surname_scores query author;
  mret (translit_scores transliterated_query author
        ++ calculate_similarity query author
        :: ru_surname_scores query author
        ++ english_scores db query author ++ gated).

(** The best score of an author: the greatest of its candidate scores. *)
Definition greatest (scores : list Q) : Q :=
  match scores with
  | [] => 0%Q
  | s :: scores => foldl pymax s scores
  end.

Definition author_best (self : AuthorMatcher) (query author : str)
    : result Q :=
  scores ← candidate_scores (translation_db self) query
             (transliterated query) author;
  mret (greatest scores).

(** The best score as a number, 0 where [author_best] raises. *)
Definition best_of (self : AuthorMatcher) (query author : str) : Q :=
  match author_best self query author with
  | Ok s => s
  | Raise _ => 0%Q
  end.

(** [max_score] as a number, 0 where [author_max_score] raises, and the
    pairs [find_all_matches] keeps, in the order of the catalog. *)
Definition max_score_of (self : AuthorMatcher) (query author : str) : Q :=
  match author_max_score (translation_db self) query author with
  | Ok s => s
  | Raise _ => 0%Q
  end.

Definition qualifying (self : AuthorMatcher) (query : str) (threshold : Q)
    : list (str * Q) :=
  List.filter (fun p => Qle_bool threshold p.2)
    ((fun author => (author, max_score_of self query author))
       <$> authors self).

(** The strings [find_all_matches] compares the query with for one
    author: its name, the translations, and its last part. *)
Definition compared_strings (self : AuthorMatcher) (author : str)
    : list str :=
  author ::
  match translation_db self !! author with
  | None => []
  | Some td =>
    match en td with
    | None => []
    | Some en_name => [en_name]
    end ++ default [] (variants td)
  end ++
  match author_surname author with
  | Ok surname => [surname]
  | Raise _ => []
  end.

(** The catalog entries for which [author.split()[-1]] is not evaluated
    on an empty list. *)
Definition has_surname (author : str) : Prop :=
  exists surname, author_surname author = Ok surname.

End author_matcher.

(** ** [utils/intent.py] *)

(** [Intent = Literal["author_search", "poem_search", "unknown"]] *)
Inductive Intent := author_search | poem_search | unknown.

#[global] Instance Intent_eq_dec : EqDecision Intent.
Proof. solve_decision. Defined.

(** The two [re.search] calls of [detect_intent]; the regular-expression
    engine is not part of the repository, only whether it finds a match is
    read. *)
Class Patterns := {
  (** [re.search(r"\b(author|автор|похож|similar|like)\w*\b", t, flags=re.I)] *)
  search_keyword : str -> bool;
  (** [re.search(r"\b(author|автор)\w*\b", t, flags=re.I)] *)
  search_author_word : str -> bool;
}.




Section intent.
Context `{Unicode} `{Patterns}.




End intent.

(** ** The Unicode tables on Basic Latin and the Russian alphabet

    [str.lower] maps A-Z and А-Я, Ё to their small letters; NFKD splits
    й and ё (and Й, Ё) into the base letter and a combining mark.  On the
    other characters of the two blocks both are the identity; the
    instance leaves every character outside the blocks unchanged. *)

Definition lower_char (c : N) : N :=
  if ((0x41 <=? c) && (c <=? 0x5A))%N then (c + 0x20)%N
  else if ((0x410 <=? c) && (c <=? 0x42F))%N then (c + 0x20)%N
  else if (c =? 0x401)%N then 0x451%N
  else c.

Definition nfkd_char (c : N) : str :=
  if (c =? 0x419)%N then [0x418; 0x306]%N
  else if (c =? 0x439)%N then [0x438; 0x306]%N
  else if (c =? 0x401)%N then [0x415; 0x308]%N
  else if (c =? 0x451)%N then [0x435; 0x308]%N
  else [c].

#[global] Instance ucd_fragment : Unicode := {
  nfkd s := s ≫= nfkd_char;
  lower s := lower_char <$> s;
}.

(** The two patterns on the same alphabet: [\w] is a letter of the two
    blocks, a digit or the underscore, [\b] holds where a word character
    has none before it, and [re.I] compares small letters.  After one of
    the words the rest of the pattern, [\w*\b], always matches, so a match
    is a word boundary followed by one of the words. *)

Definition word_char (c : N) : bool :=
  ((0x30 <=? c) && (c <=? 0x39) || (0x41 <=? c) && (c <=? 0x5A)
   || (c =? 0x5F) || (0x61 <=? c) && (c <=? 0x7A)
   || (0x410 <=? c) && (c <=? 0x44F) || (c =? 0x401) || (c =? 0x451))%N.

Fixpoint search_words (words : list str) (boundary : bool) (t : str) : bool :=
  match t with
  | [] => false
  | c :: t' =>
    boundary
      && existsb (fun w => PyStr.startswith (lower_char <$> t) w) words
    || search_words words (negb (word_char c)) t'
  end.

#[global] Instance re_fragment : Patterns := {
  search_keyword t :=
    search_words [u "author"; u "автор"; u "похож"; u "similar"; u "like"]
                 true t;
  search_author_word t := search_words [u "author"; u "автор"] true t;
}.

(** * Properties *)

(** ** The running best of [match_author] *)

Section matcher_facts.
Context `{Unicode}.

Lemma result_bind_Ok {A B} (r : result A) (k : A -> result B) b :
  r ≫= k = Ok b -> exists a, r = Ok a /\ k a = Ok b.
Proof. destruct r as [a|e]; simpl; [eauto | discriminate]. Qed.

Lemma step_translit_scores tq author st :
  step_translit tq author st
  = foldl (consider author) st (translit_scores tq author).
Proof.
  unfold step_translit, translit_scores.
  destruct tq as [[|c tq]|]; try reflexivity.
  destruct (PyStr.split author); reflexivity.
Qed.

Lemma step_ru_surname_scores query author st :
  step_ru_surname query author st
  = foldl (consider author) st (ru_surname_scores query author).
Proof.
  unfold step_ru_surname, ru_surname_scores.
  destruct (PyStr.split author); reflexivity.
Qed.

Lemma step_english_scores db query author st :
  step_english db query author st
  = foldl (consider author) st (english_scores db query author).
Proof.
  unfold step_english, english_scores.
  destruct (db !! author) as [td|]; [|reflexivity].
  rewrite foldl_app, foldl_fmap.
  destruct (en td) as [en_name|]; [|reflexivity].
  destruct (PyStr.split en_name); reflexivity.
Qed.

Lemma step_surname_scores query author st :
  step_surname query author st
  = (gated ← surname_scores query author;
     mret (foldl (consider author) st gated)).
Proof.
  unfold step_surname, surname_scores.
  destruct (author_surname author) as [surname|e]; [|reflexivity].
  simpl. unfold consider.
  destruct (Qlt_le_dec 0.8 _); reflexivity.
Qed.

Lemma match_author_step_scores db query tq st author :
  match_author_step db query tq st author
  = (scores ← candidate_scores db query tq author;
     mret (foldl (consider author) st scores)).
Proof.
  unfold match_author_step, candidate_scores.
  rewrite step_surname_scores.
  destruct (surname_scores query author) as [gated|e]; [|reflexivity].
  simpl. rewrite step_translit_scores, step_ru_surname_scores,
    step_english_scores.
  unfold step_full.
  rewrite foldl_app. simpl. rewrite !foldl_app. reflexivity.
Qed.

Local Open Scope Q_scope.

Lemma pymax_cases x y :
  (x < y /\ pymax x y = y) \/ (y <= x /\ pymax x y = x).
Proof. unfold pymax. destruct (Qlt_le_dec x y); auto. Qed.

Lemma foldl_pymax_spec scores : forall s,
  In (foldl pymax s scores) (s :: scores)
  /\ Forall (fun x => x <= foldl pymax s scores) (s :: scores).
Proof.
  induction scores as [|y scores IH]; intros s; simpl.
  - split; [auto|]. constructor; [lra | constructor].
  - destruct (IH (pymax s y)) as [Hin Hall].
    inversion Hall as [|? ? Hm Hrest]; subst.
    destruct (pymax_cases s y) as [[Hlt Heq]|[Hle Heq]]; rewrite Heq in *.
    + split; [simpl in Hin; tauto|].
      constructor; [lra|]. constructor; assumption.
    + split; [simpl in Hin; tauto|].
      constructor; [assumption|]. constructor; [lra | assumption].
Qed.

Lemma greatest_spec scores :
  scores <> [] ->
  In (greatest scores) scores
  /\ Forall (fun x => x <= greatest scores) scores.
Proof.
  destruct scores as [|s scores]; [congruence|]. intros _.
  apply foldl_pymax_spec.
Qed.

Lemma foldl_consider_spec author scores : forall st,
  let st' := foldl (consider author) st scores in
  (st' = st /\ Forall (fun x => x <= best_score st) scores)
  \/ (best_match st' = Some author
      /\ best_score st < best_score st'
      /\ In (best_score st') scores
      /\ Forall (fun x => x <= best_score st') scores).
Proof.
  induction scores as [|s scores IH]; intros st; simpl.
  - left. split; [reflexivity | constructor].
  - specialize (IH (consider author st s)). simpl in IH.
    unfold consider in IH |- *.
    destruct (Qlt_le_dec (best_score st) s) as [Hlt|Hle]; simpl in IH.
    + right. destruct IH as [[-> Hall]|(Hm & Hlt' & Hin & Hall)]; simpl.
      * repeat split; auto. constructor; [lra | assumption].
      * repeat split; auto; [lra|]. constructor; [lra | assumption].
    + destruct IH as [[-> Hall]|(Hm & Hlt' & Hin & Hall)].
      * left. split; [reflexivity|]. constructor; assumption.
      * right. repeat split; auto. constructor; [lra | assumption].
Qed.

(** One author against the running best: it is replaced exactly when
    the greatest candidate score of the author is above it. *)
Lemma foldl_consider_greatest author scores st :
  scores <> [] ->
  let st' := foldl (consider author) st scores in
  (st' = st /\ greatest scores <= best_score st)
  \/ (best_match st' = Some author
      /\ best_score st < greatest scores
      /\ best_score st' == greatest scores).
Proof.
  intros Hne. destruct (greatest_spec scores Hne) as [Gin Gall].
  destruct (foldl_consider_spec author scores st)
    as [[Heq Hall]|(Hm & Hlt & Hin & Hall)].
  - left. split; [assumption|].
    rewrite Forall_forall in Hall. apply Hall.
    apply list_elem_of_In. exact Gin.
  - right. simpl.
    rewrite Forall_forall in Hall, Gall.
    apply list_elem_of_In in Hin, Gin.
    specialize (Hall _ Gin). specialize (Gall _ Hin). simpl in *.
    repeat split; auto; lra.
Qed.

Lemma author_surname_raise author e :
  author_surname author = Raise e -> e = IndexError.
Proof.
  unfold author_surname, PyStr.last.
  destruct (PyStr.contains author (u " ")); [|discriminate].
  destruct (List.last _ _); [discriminate|]. congruence.
Qed.

Lemma has_surname_dec author :
  has_surname author \/ author_surname author = Raise IndexError.
Proof.
  destruct (author_surname author) as [s|e] eqn:E.
  - left. exists s. exact E.
  - right. apply author_surname_raise in E as ->. reflexivity.
Qed.

Lemma has_surname_all_dec l :
  Forall has_surname l
  \/ Exists (fun a => author_surname a = Raise IndexError) l.
Proof.
  induction l as [|a l [IH|IH]].
  - left. constructor.
  - destruct (has_surname_dec a) as [Ha|Ha].
    + left. constructor; assumption.
    + right. apply Exists_cons_hd. exact Ha.
  - right. apply Exists_cons_tl. exact IH.
Qed.

Lemma candidate_scores_Ok db query tq author :
  has_surname author ->
  exists scores, candidate_scores db query tq author = Ok scores
                 /\ scores <> [].
Proof.
  intros [surname Hs]. unfold candidate_scores, surname_scores.
  rewrite Hs. simpl. eexists. split; [reflexivity|].
  destruct (translit_scores tq author); discriminate.
Qed.

Lemma candidate_scores_raise db query tq author :
  author_surname author = Raise IndexError ->
  candidate_scores db query tq author = Raise IndexError.
Proof.
  intros Hs. unfold candidate_scores, surname_scores. rewrite Hs.
  reflexivity.
Qed.



Section loop.
Variables (self : AuthorMatcher) (query : str).
Let B := best_of self query.
Let loop :=
  match_author_loop (translation_db self) query (transliterated query).

(** The body of the loop on one author with a surname. *)
Lemma match_author_step_spec st author :
  has_surname author ->
  exists st',
    match_author_step (translation_db self) query (transliterated query)
      st author = Ok st'
    /\ ((st' = st /\ B author <= best_score st)
        \/ (best_match st' = Some author
            /\ best_score st < B author
            /\ best_score st' == B author)).
Proof.
  intros Hs. rewrite match_author_step_scores.
  destruct (candidate_scores_Ok (translation_db self) query
              (transliterated query) author Hs) as (scores & Hc & Hne).
  rewrite Hc. simpl. eexists. split; [reflexivity|].
  assert (B author = greatest scores) as ->.
  { unfold B, best_of, author_best. rewrite Hc. reflexivity. }
  apply foldl_consider_greatest. exact Hne.
Qed.

Lemma match_author_loop_raise l : forall st,
  Exists (fun a => author_surname a = Raise IndexError) l ->
  loop st l = Raise IndexError.
Proof.
  induction l as [|a l IH]; intros st Hex; [inversion Hex|].
  unfold loop. simpl.
  destruct (has_surname_dec a) as [Hs|Hr].
  - destruct (match_author_step_spec st a Hs) as (st1 & -> & _).
    simpl. apply IH. inversion Hex as [? ? Ha|]; subst; [|assumption].
    destruct Hs as [? Hs]. congruence.
  - rewrite match_author_step_scores, candidate_scores_raise by exact Hr.
    reflexivity.
Qed.

(** The loop keeps the running best when no author is above it, and
    otherwise ends on the first author that reaches the greatest best
    score. *)
Lemma match_author_loop_spec l : forall st,
  Forall has_surname l ->
  exists st',
    loop st l = Ok st'
    /\ ((st' = st /\ Forall (fun x => B x <= best_score st) l)
        \/ (exists l1 a l2,
              l = l1 ++ a :: l2
              /\ best_match st' = Some a
              /\ best_score st' == B a
              /\ best_score st < B a
              /\ Forall (fun x => B x < B a) l1
              /\ Forall (fun x => B x <= B a) l2)).
Proof.
  induction l as [|a l IH]; intros st Hall.
  - exists st. split; [reflexivity|]. left. split; [reflexivity|constructor].
  - inversion Hall as [|? ? Ha Hl]; subst.
    destruct (match_author_step_spec st a Ha) as (st1 & Hstep & Hcase).
    destruct (IH st1 Hl) as (st' & Hloop & Hrest).
    exists st'. split.
    { unfold loop in *. simpl. rewrite Hstep. simpl. exact Hloop. }
    destruct Hcase as [[-> Hle]|(Hm & Hlt & Heq)].
    + destruct Hrest as [[-> Hfa]|(l1 & w & l2 & -> & Hm & Heq & Hlt & H1 & H2)].
      * left. split; [reflexivity|]. constructor; assumption.
      * right. exists (a :: l1), w, l2. repeat split; auto.
        constructor; [lra | assumption].
    + destruct Hrest as [[-> Hfa]|(l1 & w & l2 & -> & Hm' & Heq' & Hlt' & H1 & H2)].
      * right. exists [], a, l. repeat split; auto.
        eapply Forall_impl; [exact Hfa|]. simpl. intros x Hx. lra.
      * right. exists (a :: l1), w, l2. repeat split; auto; [lra|].
        constructor; [lra | assumption].
Qed.

(** The first author that reaches the greatest best score is kept. *)
Lemma match_author_loop_first l1 : forall st a l2,
  Forall has_surname (l1 ++ a :: l2) ->
  best_score st < B a ->
  Forall (fun x => B x < B a) l1 ->
  Forall (fun x => B x <= B a) l2 ->
  exists st', loop st (l1 ++ a :: l2) = Ok st' /\ best_match st' = Some a.
Proof.
  induction l1 as [|x l1 IH]; intros st a l2 Hall Hlt H1 H2; simpl in *.
  - inversion Hall as [|? ? Ha Hl]; subst.
    destruct (match_author_step_spec st a Ha) as (st1 & Hstep & Hcase).
    destruct (match_author_loop_spec l2 st1 Hl) as (st' & Hloop & Hrest).
    exists st'. split.
    { unfold loop in *. simpl. rewrite Hstep. exact Hloop. }
    destruct Hcase as [[-> Hle]|(Hm & _ & Heq)]; [lra|].
    destruct Hrest as [[-> _]|(l1 & w & l3 & -> & _ & _ & Hlt' & _ & _)];
      [assumption|].
    rewrite Forall_app, Forall_cons in H2. lra.
  - inversion Hall as [|? ? Hx Hl]; subst.
    inversion H1 as [|? ? Hxa H1']; subst.
    destruct (match_author_step_spec st x Hx) as (st1 & Hstep & Hcase).
    destruct (IH st1 a l2 Hl) as (st' & Hloop & Hm); auto.
    { destruct Hcase as [[-> _]|(_ & _ & Heq)]; lra. }
    exists st'. split; [|assumption].
    unfold loop in *. simpl. rewrite Hstep. exact Hloop.
Qed.
End loop.


(** C2.  A surname-only score of at most 0.8 leaves the running best of
    [match_author] as it is, whatever the threshold: the body of the loop
    then amounts to its other strategies.  In [find_all_matches] such a
    score does not enter the [max_score] of the author. *)
Theorem surname_only_floor query author surname :
  author_surname author = Ok surname ->
  calculate_similarity query surname <= 0.8 ->
  (forall st, step_surname query author st = Ok st)
  /\ (forall db tq st,
        match_author_step db query tq st author
        = Ok (step_english db query author
                (step_ru_surname query author
                   (step_full query author (step_translit tq author st)))))
  /\ (forall db,
        author_max_score db query author
        = Ok (named_max_score db query author)).
Proof.
  intros Hs Hle.
  assert (forall st, step_surname query author st = Ok st) as Hstep.
  { intros st. unfold step_surname. rewrite Hs. simpl.
    destruct (Qlt_le_dec 0.8 _); [lra | reflexivity]. }
  split; [exact Hstep|]. split.
  - intros db tq st. unfold match_author_step. apply Hstep.
  - intros db. unfold author_max_score. rewrite Hs. simpl.
    destruct (Qlt_le_dec 0.8 _); [lra | reflexivity].
Qed.

Lemma decide_elem_of_cons_ne {A B} `{EqDecision A} (k a : A) (l : list A)
    (X Y : B) :
  a <> k ->
  (if decide (k ∈ a :: l) then X else Y) = (if decide (k ∈ l) then X else Y).
Proof.
  intros Hne.
  destruct (decide (k ∈ l)) as [Hin|Hnin];
    destruct (decide (k ∈ a :: l)) as [Hin'|Hnin']; try reflexivity.
  - exfalso. apply Hnin'. apply elem_of_cons. auto.
  - exfalso. apply elem_of_cons in Hin' as [->|Hin']; auto.
Qed.

Lemma build_translation_map_lookup l : forall db k,
  _build_translation_map l db !! k
  = match db !! k with
    | Some e => Some e
    | None =>
      if decide (k ∈ l)
      then let english_name :=
             _transliterate_to_english k common_translations in
           Some (mkTrans (Some english_name) (Some [english_name]))
      else None
    end.
Proof.
  unfold _build_translation_map.
  induction l as [|a l IH]; intros db k; cbn [foldl].
  - destruct (db !! k); [reflexivity|].
    destruct (decide (k ∈ [])) as [Hin|]; [|reflexivity].
    apply elem_of_nil in Hin as [].
  - rewrite IH. destruct (db !! a) as [e|] eqn:Ea.
    + destruct (db !! k) as [e'|] eqn:Ek; [reflexivity|].
      rewrite decide_elem_of_cons_ne by congruence. reflexivity.
    + destruct (decide (a = k)) as [->|Hne].
      * rewrite lookup_insert_eq, Ea.
        destruct (decide (k ∈ k :: l)) as [|Hnin]; [reflexivity|].
        exfalso. apply Hnin. apply elem_of_cons. auto.
      * rewrite lookup_insert_ne by exact Hne.
        destruct (db !! k); [reflexivity|].
        rewrite decide_elem_of_cons_ne by exact Hne. reflexivity.
Qed.



End matcher_facts.

(** ** The order of the catalog *)

Section order.
Context `{Unicode}.
Local Open Scope Q_scope.

End order.


(** ** Sorting *)

Section sort_facts.
Context {A : Type} (le : A -> A -> bool).
Hypothesis le_total : forall x y, le x y = false -> le y x = true.
Hypothesis le_trans : forall x y z, le x y = true -> le y z = true -> le x z = true.

Lemma insert_by_perm x l : insert_by le x l ≡ₚ x :: l.
Proof.
  induction l as [|y l IH]; simpl; [reflexivity|].
  destruct (le x y); [reflexivity|].
  rewrite IH. apply Permutation_swap.
Qed.

Lemma sort_by_perm l : sort_by le l ≡ₚ l.
Proof.
  induction l as [|x l IH]; simpl; [reflexivity|].
  rewrite insert_by_perm. rewrite IH. reflexivity.
Qed.


End sort_facts.





Lemma slice_to_sublist {A} (l : list A) k x : x ∈ slice_to l k -> x ∈ l.
Proof.
  unfold slice_to. destruct (decide _); intros Hx;
    apply elem_of_take in Hx as (i & Hi & _);
    eapply list_elem_of_lookup_2; eassumption.
Qed.

(** ** [find_all_matches] *)

Section find_all.
Context `{Unicode}.
Local Open Scope Q_scope.

Lemma author_max_score_Ok db query author :
  has_surname author ->
  exists s, author_max_score db query author = Ok s.
Proof.
  intros [surname Hs]. unfold author_max_score. rewrite Hs. simpl. eauto.
Qed.

Lemma author_max_score_raise db query author :
  author_surname author = Raise IndexError ->
  author_max_score db query author = Raise IndexError.
Proof. intros Hs. unfold author_max_score. rewrite Hs. reflexivity. Qed.

Lemma Qle_bool_false x y : Qle_bool x y = false -> y < x.
Proof.
  intros E. destruct (Qlt_le_dec y x) as [|Hle]; [assumption|].
  apply Qle_bool_iff in Hle. congruence.
Qed.

Lemma find_all_matches_loop_spec self query threshold l : forall matches,
  Forall has_surname l ->
  find_all_matches_loop (translation_db self) query threshold matches l
  = Ok (matches ++
        List.filter (fun p => Qle_bool threshold p.2)
          ((fun author => (author, max_score_of self query author)) <$> l)).
Proof.
  induction l as [|a l IH]; intros matches Hall; simpl.
  - rewrite app_nil_r. reflexivity.
  - inversion Hall as [|? ? Ha Hl]; subst.
    destruct (author_max_score_Ok (translation_db self) query a Ha)
      as [s Hs].
    assert (max_score_of self query a = s) as Hm
      by (unfold max_score_of; rewrite Hs; reflexivity).
    rewrite Hs, Hm. simpl.
    rewrite IH by exact Hl.
    destruct (Qlt_le_dec s threshold) as [Hlt|Hle].
    + destruct (Qle_bool threshold s) eqn:E; [|reflexivity].
      apply Qle_bool_iff in E. lra.
    + apply Qle_bool_iff in Hle. rewrite Hle.
      rewrite <- app_assoc. reflexivity.
Qed.

Lemma find_all_matches_loop_raise db query threshold l : forall matches,
  Exists (fun a => author_surname a = Raise IndexError) l ->
  find_all_matches_loop db query threshold matches l = Raise IndexError.
Proof.
  induction l as [|a l IH]; intros matches Hex; [inversion Hex|]. simpl.
  destruct (has_surname_dec a) as [Ha|Ha].
  - destruct (author_max_score_Ok db query a Ha) as [s ->]. simpl.
    apply IH. inversion Hex as [? ? Hr|]; subst; [|assumption].
    destruct Ha as [? Ha]. congruence.
  - rewrite author_max_score_raise by exact Ha. reflexivity.
Qed.

Lemma sort_matches_perm matches : sort_matches matches ≡ₚ matches.
Proof. apply sort_by_perm. Qed.


Lemma pymax_choice x y : pymax x y = x \/ pymax x y = y.
Proof. unfold pymax. destruct (Qlt_le_dec x y); auto. Qed.

Lemma foldl_pymax_choice query variants : forall m,
  let r := foldl (fun m v => pymax m (calculate_similarity query v)) m variants in
  r = m \/ exists v, v ∈ variants /\ r = calculate_similarity query v.
Proof.
  induction variants as [|v variants IH]; intros m; simpl; [auto|].
  destruct (IH (pymax m (calculate_similarity query v))) as [E|(w & Hw & E)].
  - simpl in E. rewrite E.
    destruct (pymax_choice m (calculate_similarity query v)) as [->| ->];
      [auto|]. right. exists v. split; [set_solver | reflexivity].
  - right. exists w. split; [set_solver | exact E].
Qed.

Ltac in_list :=
  repeat match goal with
         | H : _ ∈ _ |- _ => apply list_elem_of_In in H
         end;
  apply list_elem_of_In;
  repeat (simpl in *; rewrite ?in_app_iff in * );
  simpl; tauto.

Lemma author_max_score_choice self query author s :
  author_max_score (translation_db self) query author = Ok s ->
  s = 0 \/ exists c, c ∈ compared_strings self author
                     /\ s = calculate_similarity query c.
Proof.
  unfold author_max_score, compared_strings.
  destruct (author_surname author) as [surname|e]; [|discriminate].
  simpl. intros Hs.
  assert (named_max_score (translation_db self) query author = 0
          \/ exists c, c ∈ author ::
                        match translation_db self !! author with
                        | None => []
                        | Some td =>
                          match en td with
                          | None => []
                          | Some en_name => [en_name]
                          end ++ default [] (variants td)
                        end
                     /\ named_max_score (translation_db self) query author
                        = calculate_similarity query c) as Hn.
  { unfold named_max_score.
    assert (pymax 0 (calculate_similarity query author) = 0
            \/ pymax 0 (calculate_similarity query author)
               = calculate_similarity query author) as H0
      by apply pymax_choice.
    destruct (translation_db self !! author) as [td|].
    2: { destruct H0 as [->| ->]; [auto|]. right. exists author.
         split; [in_list | reflexivity]. }
    match goal with
    | |- foldl ?f ?m ?vs = _ \/ _ =>
      destruct (foldl_pymax_choice query vs m) as [E|(v & Hv & E)]
    end; simpl in E; rewrite E.
    - destruct (en td) as [en_name|].
      + destruct (pymax_choice (pymax 0 (calculate_similarity query author))
                    (calculate_similarity query en_name)) as [->| ->].
        * destruct H0 as [->| ->]; [auto|]. right. exists author.
          split; [in_list | reflexivity].
        * right. exists en_name. split; [in_list | reflexivity].
      + destruct H0 as [->| ->]; [auto|]. right. exists author.
        split; [in_list | reflexivity].
    - right. exists v. split; [|reflexivity].
      destruct (en td); in_list. }
  destruct (Qlt_le_dec 0.8 (calculate_similarity query surname)).
  - inversion Hs as [Hs']. clear Hs.
    destruct (pymax_choice (named_max_score (translation_db self) query author)
                (calculate_similarity query surname)) as [->| ->].
    + destruct Hn as [->|(c & Hc & ->)]; [auto|]. right. exists c.
      split; [|reflexivity]. rewrite app_comm_cons. in_list.
    + right. exists surname. split; [in_list | reflexivity].
  - inversion Hs as [Hs']. clear Hs.
    destruct Hn as [->|(c & Hc & ->)]; [auto|]. right. exists c.
    split; [|reflexivity]. rewrite app_comm_cons. in_list.
Qed.

Lemma qualifying_elem self query threshold author s :
  Forall has_surname (authors self) ->
  (author, s) ∈ qualifying self query threshold
  <-> author ∈ authors self
      /\ author_max_score (translation_db self) query author = Ok s
      /\ threshold <= s.
Proof.
  intros Hall. unfold qualifying.
  rewrite list_elem_of_In, filter_In, <- list_elem_of_In, list_elem_of_fmap.
  simpl. rewrite Qle_bool_iff. split.
  - intros [(a & E & Ha) Hle]. inversion E; subst.
    rewrite Forall_forall in Hall.
    destruct (author_max_score_Ok (translation_db self) query a (Hall a Ha))
      as [s Hs].
    unfold max_score_of in *. rewrite Hs in *. auto.
  - intros (Ha & Hs & Hle). split; [|assumption].
    exists author. split; [|assumption].
    unfold max_score_of. rewrite Hs. reflexivity.
Qed.

End find_all.

(** ** Catalog entries without a last part *)

Section blank_entries.
Context `{Unicode}.

(** C7 (the defect).  An entry of the catalog that contains a space and
    splits into no part, such as a single space, makes [match_author] and
    [find_all_matches] raise [IndexError], whatever the query. *)
Theorem blank_entry_raises self query threshold top_k author :
  author ∈ authors self ->
  author_surname author = Raise IndexError ->
  match_author self query threshold = Raise IndexError
  /\ find_all_matches self query threshold top_k = Raise IndexError.
Proof.
  intros Hin Hr.
  assert (Exists (fun a => author_surname a = Raise IndexError)
            (authors self)) as Hex.
  { apply Exists_exists. exists author. split; assumption. }
  split.
  - unfold match_author.
    rewrite (match_author_loop_raise self query _ _ Hex). reflexivity.
  - unfold find_all_matches.
    rewrite (find_all_matches_loop_raise _ _ _ _ _ Hex). reflexivity.
Qed.
End blank_entries.

(** ** The translation table *)

(** C3 (as amended).  Without a path, or with a path that names no file,
    [__init__] synthesizes the table: every author of the catalog has
    exactly one entry, made of its rendering by
    [_transliterate_to_english].  A file that [json.load] reads becomes
    the table as it is, and a file it rejects makes [__init__] raise. *)
Theorem init_translation_table {Path} (fs : Path -> stored) author_list path :
  (match path with None => True | Some p => fs p = Missing end ->
   exists self,
     __init__ fs author_list path = Ok self
     /\ authors self = author_list
     /\ forall author, author ∈ author_list ->
          let english_name :=
            _transliterate_to_english author common_translations in
          translation_db self !! author
          = Some (mkTrans (Some english_name) (Some [english_name]))
          /\ exists! td, translation_db self !! author = Some td)
  /\ (forall p content,
        path = Some p -> fs p = Loadable content ->
        __init__ fs author_list path = Ok (mkMatcher author_list content))
  /\ (forall p,
        path = Some p -> fs p = Corrupt ->
        __init__ fs author_list path = Raise JSONDecodeError).
Proof.
  split; [|split].
  - intros Hp.
    exists (mkMatcher author_list (_build_translation_map author_list ∅)).
    split; [|split; [reflexivity|]].
    + unfold __init__. destruct path as [p|]; [rewrite Hp|]; reflexivity.
    + intros author Hin. simpl.
      assert (_build_translation_map author_list ∅ !! author
              = Some (mkTrans
                        (Some (_transliterate_to_english author
                                 common_translations))
                        (Some [_transliterate_to_english author
                                 common_translations]))) as E.
      { rewrite build_translation_map_lookup, lookup_empty.
        destruct (decide (author ∈ author_list)); [reflexivity|contradiction]. }
      split; [exact E|].
      eexists. split; [exact E|]. intros td' E'. congruence.
  - intros p content -> Hf. unfold __init__. rewrite Hf. reflexivity.
  - intros p -> Hf. unfold __init__. rewrite Hf. reflexivity.
Qed.

(** ** The stemmer *)




(** ** [detect_intent] *)



Lemma forallb_reverse {A} (f : A -> bool) l :
  forallb f (reverse l) = forallb f l.
Proof.
  apply eq_true_iff_eq. rewrite !forallb_forall.
  split; intros Hl x Hx; apply Hl;
    apply list_elem_of_In; apply list_elem_of_In in Hx;
    [rewrite elem_of_reverse | rewrite <- elem_of_reverse]; exact Hx.
Qed.


Section intent_facts.
Context `{Unicode} `{Patterns}.

End intent_facts.

(** * [difflib] *)

Import difflib.

(** ** [find_longest_match] stays inside its range *)

Section within.
Variables (a b : str) (b2j : gmap N (list nat)).
Variables (alo ahi blo bhi : nat).

Lemma j2len_get_bound i j2len j :
  row_bound alo blo i j2len -> alo <= i -> blo <= j ->
  j2len_get j2len j + alo <= i /\ j2len_get j2len j + blo <= j.
Proof.
  intros Hrow Hi Hj. unfold j2len_get.
  destruct j as [|j']; [lia|].
  destruct (j2len !! j') as [v|] eqn:E; simpl; [|lia].
  destruct (Hrow j' v E). lia.
Qed.

Lemma scan_row_within i j2len js : forall newj2len best,
  alo <= i -> i < ahi ->
  row_bound alo blo i j2len ->
  row_bound alo blo (S i) newj2len ->
  within alo ahi blo bhi best ->
  row_bound alo blo (S i) (scan_row i blo bhi j2len js newj2len best).1
  /\ within alo ahi blo bhi (scan_row i blo bhi j2len js newj2len best).2.
Proof.
  induction js as [|j js IH]; intros newj2len best Hlo Hhi Hprev Hnew Hbest;
    simpl; [auto|].
  destruct (decide (j < blo)); [apply IH; assumption|].
  destruct (decide (bhi <= j)); [auto|].
  destruct (j2len_get_bound i j2len j Hprev Hlo) as [Hka Hkb]; [lia|].
  apply IH; try assumption.
  - intros j' v. destruct (decide (j = j')) as [<-|Hne].
    + rewrite lookup_insert_eq. intros [= <-]. lia.
    + rewrite lookup_insert_ne by exact Hne. apply Hnew.
  - destruct (decide (m_size best < j2len_get j2len j + 1)); [|assumption].
    unfold within. simpl. lia.
Qed.

Lemma scan_rows_within_aux len : forall start j2len best,
  alo <= start -> start + len <= ahi ->
  row_bound alo blo start j2len ->
  within alo ahi blo bhi best ->
  let r := foldl (fun '(j2len, best) i =>
                    scan_row i blo bhi j2len (b2j_get b2j a i) ∅ best)
                 (j2len, best) (seq start len) in
  row_bound alo blo (start + len) r.1 /\ within alo ahi blo bhi r.2.
Proof.
  induction len as [|len IH]; intros start j2len best Hlo Hhi Hrow Hbest;
    simpl.
  - rewrite Nat.add_0_r. auto.
  - destruct (scan_row_within start j2len (b2j_get b2j a start) ∅ best)
      as [Hrow' Hbest']; try assumption; try lia.
    { intros j v. rewrite lookup_empty. discriminate. }
    destruct (scan_row start blo bhi j2len (b2j_get b2j a start) ∅ best)
      as [j2len' best'] eqn:E. simpl in Hrow', Hbest'.
    rewrite <- Nat.add_succ_comm. apply IH; try assumption; lia.
Qed.

Lemma scan_rows_within :
  alo <= ahi -> blo <= bhi ->
  within alo ahi blo bhi (scan_rows a b2j alo ahi blo bhi).2.
Proof.
  intros Ha Hb. unfold scan_rows.
  apply (scan_rows_within_aux (ahi - alo) alo ∅ (mkMatch alo blo 0)).
  - lia.
  - lia.
  - intros j v. rewrite lookup_empty. discriminate.
  - unfold within. simpl. lia.
Qed.

Lemma extend_left_within besti : forall bestj bestsize,
  within alo ahi blo bhi (mkMatch besti bestj bestsize) ->
  within alo ahi blo bhi (extend_left a b alo blo besti bestj bestsize).
Proof.
  induction besti as [|i' IH]; intros bestj bestsize Hw; simpl; [assumption|].
  destruct bestj as [|j']; [assumption|].
  destruct (decide _) as [(Hi & Hj & _)|]; [|assumption].
  apply IH. unfold within in *. simpl in *. lia.
Qed.

Lemma extend_right_within besti bestj gap : forall bestsize,
  besti + bestsize + gap <= ahi -> bestj + bestsize <= bhi ->
  let size := extend_right a b bhi besti bestj gap bestsize in
  besti + size <= ahi /\ bestj + size <= bhi /\ bestsize <= size.
Proof.
  induction gap as [|gap IH]; intros bestsize Ha Hb; simpl; [lia|].
  destruct (decide _) as [[Hj _]|]; [|lia].
  destruct (IH (S bestsize)) as (? & ? & ?); lia.
Qed.

Lemma find_longest_match_within :
  alo <= ahi -> blo <= bhi ->
  within alo ahi blo bhi (find_longest_match a b b2j alo ahi blo bhi).
Proof.
  intros Ha Hb. unfold find_longest_match.
  pose proof (scan_rows_within Ha Hb) as H0.
  destruct (scan_rows a b2j alo ahi blo bhi).2 as [i0 j0 k0]. simpl.
  apply extend_left_within in H0.
  destruct (extend_left a b alo blo i0 j0 k0) as [i1 j1 k1]. simpl.
  unfold within in H0. simpl in H0.
  destruct (extend_right_within i1 j1 (ahi - (i1 + k1)) k1) as (? & ? & ?);
    [lia | lia |].
  unfold within. simpl. lia.
Qed.
End within.

(** ** The queue of [get_matching_blocks] empties *)

Lemma blocks_loop_step a b b2j fuel alo ahi blo bhi queue matching_blocks :
  blocks_loop a b b2j (S fuel) ((alo, ahi, blo, bhi) :: queue) matching_blocks
  = let x := find_longest_match a b b2j alo ahi blo bhi in
    if decide (m_size x = 0)
    then blocks_loop a b b2j fuel queue matching_blocks
    else
      let queue :=
        if decide (alo < m_a x /\ blo < m_b x)
        then (alo, m_a x, blo, m_b x) :: queue else queue in
      let queue :=
        if decide (m_a x + m_size x < ahi /\ m_b x + m_size x < bhi)
        then (m_a x + m_size x, ahi, m_b x + m_size x, bhi) :: queue
        else queue in
      blocks_loop a b b2j fuel queue (matching_blocks ++ [x]).
Proof. reflexivity. Qed.

Lemma blocks_loop_fuel a b b2j fuel : forall queue matching_blocks,
  Forall range_ok queue ->
  queue_weight queue <= fuel ->
  is_Some (blocks_loop a b b2j fuel queue matching_blocks).
Proof.
  induction fuel as [|fuel IH]; intros queue blocks Hok Hw.
  - destruct queue as [|[[[alo ahi] blo] bhi] queue]; simpl; [eauto|].
    simpl in Hw. lia.
  - destruct queue as [|[[[alo ahi] blo] bhi] queue]; [simpl; eauto|].
    inversion Hok as [|? ? Hr Hok']; subst. simpl in Hr.
    destruct Hr as [Ha Hb].
    pose proof (find_longest_match_within a b b2j alo ahi blo bhi Ha Hb)
      as Hin.
    rewrite blocks_loop_step.
    destruct (find_longest_match a b b2j alo ahi blo bhi) as [i j k].
    unfold within in Hin. simpl in *.
    destruct (decide (k = 0)); [apply IH; [assumption | lia]|].
    apply IH.
    + repeat match goal with
             | |- context [decide ?P] => destruct (decide P)
             end; repeat constructor; simpl; try assumption; lia.
    + repeat match goal with
             | |- context [decide ?P] => destruct (decide P)
             end; simpl; lia.
Qed.

Lemma blocks_loop_terminates a b :
  is_Some (blocks_loop a b (chain_b b) (2 * length a + 1)
             [(0, length a, 0, length b)] []).
Proof.
  apply blocks_loop_fuel.
  - repeat constructor; simpl; lia.
  - simpl. lia.
Qed.

(** ** The table [b2j] *)

Lemma filter_ext_in {A} (P Q : A -> Prop) `{!forall x, Decision (P x)}
    `{!forall x, Decision (Q x)} (l : list A) :
  (forall x, x ∈ l -> P x <-> Q x) -> filter P l = filter Q l.
Proof.
  induction l as [|x l IH]; intros HPQ; [reflexivity|].
  rewrite !filter_cons.
  rewrite IH by (intros y Hy; apply HPQ; apply elem_of_cons; auto).
  assert (P x <-> Q x) as Hx by (apply HPQ; apply elem_of_cons; auto).
  destruct (decide (P x)) as [HP|HP], (decide (Q x)) as [HQ|HQ];
    try reflexivity; tauto.
Qed.

Lemma positions_snoc b y c :
  positions (b ++ [y]) c
  = positions b c ++ (if decide (y = c) then [length b] else []).
Proof.
  unfold positions. rewrite length_app. simpl.
  rewrite Nat.add_1_r, seq_S, filter_app. simpl. f_equal.
  - apply filter_ext_in. intros j Hj. apply elem_of_seq in Hj.
    rewrite lookup_app_l by lia. reflexivity.
  - rewrite filter_cons, filter_nil.
    rewrite lookup_app_r, Nat.sub_diag by lia. simpl.
    destruct (decide (Some y = Some c)) as [E|E], (decide (y = c)) as [E'|E'];
      try reflexivity; congruence.
Qed.

Lemma chain_b_index_lookup b c :
  default [] (chain_b_index b !! c) = positions b c.
Proof.
  unfold chain_b_index. induction b as [|y b IH] using rev_ind.
  - reflexivity.
  - rewrite imap_app, foldl_app, positions_snoc. simpl.
    rewrite Nat.add_0_r.
    destruct (decide (y = c)) as [->|Hne].
    + rewrite lookup_insert_eq. simpl. rewrite IH. reflexivity.
    + rewrite lookup_insert_ne by exact Hne. rewrite IH, app_nil_r.
      reflexivity.
Qed.

Lemma chain_b_lookup b c :
  default [] (chain_b b !! c) = []
  \/ default [] (chain_b b !! c) = positions b c.
Proof.
  unfold chain_b. destruct (decide (200 <= length b)).
  - rewrite map_lookup_filter.
    destruct (chain_b_index b !! c) as [js|] eqn:E; simpl; [|auto].
    pose proof (chain_b_index_lookup b c) as Hjs. rewrite E in Hjs.
    simpl in Hjs. subst js.
    case_guard; simpl; auto.
  - right. apply chain_b_index_lookup.
Qed.

Lemma elem_of_positions b c j : j ∈ positions b c <-> b !! j = Some c.
Proof.
  unfold positions. rewrite list_elem_of_filter, elem_of_seq. split.
  - tauto.
  - intros E. split; [exact E|]. apply lookup_lt_Some in E. lia.
Qed.

Lemma positions_split b c i :
  b !! i = Some c ->
  exists js1 js2,
    positions b c = js1 ++ i :: js2
    /\ Forall (fun j => j < i) js1
    /\ Forall (fun j => i < j) js2.
Proof.
  intros E. pose proof (lookup_lt_Some _ _ _ E) as Hi.
  unfold positions.
  replace (length b) with (i + S (length b - S i)) by lia.
  rewrite seq_app. simpl. rewrite filter_app, filter_cons.
  rewrite decide_True by exact E.
  eexists _, _. split; [reflexivity|]. split.
  - apply Forall_forall. intros j Hj.
    apply list_elem_of_filter in Hj as [_ Hj]. apply elem_of_seq in Hj. lia.
  - apply Forall_forall. intros j Hj.
    apply list_elem_of_filter in Hj as [_ Hj]. apply elem_of_seq in Hj. lia.
Qed.

(** ** A sequence against itself *)

Lemma scan_row_app i n j2len js1 : forall js2 newj2len best,
  Forall (fun j => j < n) js1 ->
  scan_row i 0 n j2len (js1 ++ js2) newj2len best
  = scan_row i 0 n j2len js2
      (scan_row i 0 n j2len js1 newj2len best).1
      (scan_row i 0 n j2len js1 newj2len best).2.
Proof.
  induction js1 as [|j js1 IH]; intros js2 newj2len best Hlt; [reflexivity|].
  inversion Hlt as [|? ? Hj Hlt']; subst. simpl.
  destruct (decide (j < 0)); [lia|].
  destruct (decide (n <= j)); [lia|].
  apply IH. exact Hlt'.
Qed.

Lemma scan_row_lookup i n j2len js : forall newj2len best j,
  Forall (fun j => j < n) js ->
  (scan_row i 0 n j2len js newj2len best).1 !! j
  = if decide (j ∈ js) then Some (j2len_get j2len j + 1)
    else newj2len !! j.
Proof.
  induction js as [|j0 js IH]; intros newj2len best j Hlt; simpl.
  - destruct (decide (j ∈ [])) as [Hin|]; [|reflexivity].
    apply elem_of_nil in Hin as [].
  - inversion Hlt as [|? ? Hj Hlt']; subst.
    destruct (decide (j0 < 0)); [lia|].
    destruct (decide (n <= j0)); [lia|].
    rewrite IH by exact Hlt'.
    destruct (decide (j ∈ js)) as [Hin|Hnin].
    + rewrite decide_True by (apply elem_of_cons; auto). reflexivity.
    + destruct (decide (j0 = j)) as [->|Hne].
      * rewrite lookup_insert_eq.
        rewrite decide_True by (apply elem_of_cons; auto). reflexivity.
      * rewrite lookup_insert_ne by exact Hne.
        rewrite decide_False; [reflexivity|].
        intros Hin. apply elem_of_cons in Hin as [->|Hin]; contradiction.
Qed.

Lemma scan_row_keep i n j2len js : forall newj2len best,
  Forall (fun j => j < n) js ->
  Forall (fun j => j2len_get j2len j + 1 <= m_size best) js ->
  (scan_row i 0 n j2len js newj2len best).2 = best.
Proof.
  induction js as [|j js IH]; intros newj2len best Hlt Hle; [reflexivity|].
  inversion Hlt as [|? ? Hj Hlt']; subst.
  inversion Hle as [|? ? Hk Hle']; subst. simpl.
  destruct (decide (j < 0)); [lia|].
  destruct (decide (n <= j)); [lia|].
  destruct (decide (m_size best < j2len_get j2len j + 1)); [lia|].
  apply IH; assumption.
Qed.

Section same.
Variables (x : str) (b2j : gmap N (list nat)).
Hypothesis b2j_spec : forall c,
  default [] (b2j !! c) = [] \/ default [] (b2j !! c) = positions x c.

Let n := length x.
Let R := run b2j x.

Lemma run_le i : R i <= i.
Proof.
  unfold R. induction i as [|i IH]; simpl; [lia|].
  destruct (b2j_get b2j x i); lia.
Qed.

Lemma b2j_get_cases i c :
  x !! i = Some c ->
  (b2j_get b2j x i = [] /\ R (S i) = 0)
  \/ (b2j_get b2j x i = positions x c /\ R (S i) = S (R i)).
Proof.
  intros E.
  assert (b2j_get b2j x i = default [] (b2j !! c)) as Hget
    by (unfold b2j_get; rewrite E; reflexivity).
  unfold R. simpl. rewrite Hget.
  destruct (b2j_spec c) as [-> | ->]; [auto|].
  destruct (positions x c) as [|j js]; auto.
Qed.

Lemma j2len_get_diagonal i st j :
  diagonal b2j x i st ->
  j2len_get st.1 j <= R i /\ j2len_get st.1 j <= R j.
Proof.
  intros (H1 & _). unfold j2len_get. destruct j as [|j']; [lia|].
  destruct (st.1 !! j') as [v|] eqn:E; simpl; [|lia].
  apply H1 in E. exact E.
Qed.

Lemma scan_row_diagonal i st :
  i < n ->
  diagonal b2j x i st ->
  diagonal b2j x (S i)
    (scan_row i 0 n st.1 (b2j_get b2j x i) ∅ st.2).
Proof.
  intros Hi Hd.
  destruct (lookup_lt_is_Some_2 x i Hi) as [c Hc].
  pose proof Hd as (H1 & H2 & H3 & H4 & H5).
  destruct (b2j_get_cases i c Hc) as [[Hjs HR]|[Hjs HR]]; rewrite Hjs.
  - (* the element of row [i] is not a key *)
    simpl. unfold diagonal. fold R. simpl. rewrite HR.
    split; [intros j v; rewrite lookup_empty; discriminate|].
    split; [reflexivity|]. split; [assumption|]. split; [lia|].
    intros i' Hi'. destruct (decide (i' = S i)) as [->|]; [fold R; lia|].
    apply H5. lia.
  - destruct (positions_split x c i Hc) as (js1 & js2 & Hsplit & Hlt1 & Hgt2).
    assert (forall j, j ∈ positions x c -> j < n /\ R (S j) = S (R j)) as Hpos.
    { intros j Hj. apply elem_of_positions in Hj.
      split; [apply lookup_lt_Some in Hj; exact Hj|].
      destruct (b2j_get_cases j c Hj) as [[Hn _]|[_ Hr]]; [|exact Hr].
      assert (b2j_get b2j x j = b2j_get b2j x i) as Hsame
        by (unfold b2j_get; rewrite Hj, Hc; reflexivity).
      rewrite Hsame, Hjs, Hsplit in Hn. destruct js1; discriminate. }
    assert (Forall (fun j => j < n) (positions x c)) as Hall.
    { apply Forall_forall. intros j Hj. apply Hpos. exact Hj. }
    assert (Forall (fun j => j < n) js1 /\ Forall (fun j => j < n) (i :: js2))
      as [Hn1 Hn2] by (rewrite Hsplit in Hall; apply Forall_app in Hall; exact Hall).
    (* the rows before, at and after the diagonal *)
    set (k := j2len_get st.1 i + 1).
    assert (k = R (S i)) as Hk by (unfold k; fold R in H2; lia).
    set (best1 := if decide (m_size st.2 < k)
                  then mkMatch (i + 1 - k) (i + 1 - k) k else st.2).
    assert ((scan_row i 0 n st.1 (positions x c) ∅ st.2).2 = best1) as Hbest.
    { rewrite Hsplit, scan_row_app by exact Hn1.
      rewrite (scan_row_keep i n st.1 js1); [|exact Hn1|].
      2: { apply Forall_forall. intros j Hj.
           rewrite Forall_forall in Hlt1. specialize (Hlt1 j Hj).
           destruct (j2len_get_diagonal i st j Hd) as [_ Hle].
           destruct (Hpos j) as [_ Hr];
             [rewrite Hsplit; apply elem_of_app; auto|].
           specialize (H5 (S j)). fold R in H5. lia. }
      simpl. destruct (decide (i < 0)); [lia|].
      destruct (decide (n <= i)); [lia|].
      fold k. fold best1.
      apply scan_row_keep; [inversion Hn2; assumption|].
      apply Forall_forall. intros j Hj.
      destruct (j2len_get_diagonal i st j Hd) as [Hle _].
      unfold best1. destruct (decide (m_size st.2 < k)); simpl; lia. }
    unfold diagonal. fold R. rewrite Hbest. simpl.
    pose proof (run_le (S i)) as HRle.
    split; [|split; [|split; [|split]]].
    + intros j v. rewrite scan_row_lookup by exact Hall.
      destruct (decide (j ∈ positions x c)) as [Hin|];
        [|rewrite lookup_empty; discriminate].
      intros [= <-].
      destruct (j2len_get_diagonal i st j Hd) as [Hle1 Hle2].
      destruct (Hpos j Hin) as [_ Hr]. lia.
    + rewrite scan_row_lookup by exact Hall.
      rewrite decide_True by (apply elem_of_positions; exact Hc).
      simpl. fold k. exact Hk.
    + unfold best1. destruct (decide (m_size st.2 < k)); simpl; auto.
    + unfold best1. destruct (decide (m_size st.2 < k)); simpl; lia.
    + intros i' Hi'. unfold best1.
      destruct (decide (i' = S i)) as [->|Hne].
      * destruct (decide (m_size st.2 < k)); simpl; lia.
      * specialize (H5 i'). fold R in H5.
        destruct (decide (m_size st.2 < k)); simpl; lia.
Qed.

Lemma scan_rows_diagonal_aux len : forall start st,
  start + len <= n ->
  diagonal b2j x start st ->
  diagonal b2j x (start + len)
    (foldl (fun '(j2len, best) i =>
              scan_row i 0 n j2len (b2j_get b2j x i) ∅ best)
           st (seq start len)).
Proof.
  induction len as [|len IH]; intros start st Hle Hd; simpl.
  - rewrite Nat.add_0_r. exact Hd.
  - rewrite <- Nat.add_succ_comm. apply IH; [lia|].
    destruct st as [j2len best]. apply (scan_row_diagonal start (j2len, best));
      [lia | exact Hd].
Qed.

Lemma scan_rows_diagonal :
  diagonal b2j x n (scan_rows x b2j 0 n 0 n).
Proof.
  unfold scan_rows. rewrite Nat.sub_0_r.
  apply (scan_rows_diagonal_aux n 0 (∅, mkMatch 0 0 0)); [lia|].
  unfold diagonal. simpl.
  split; [|split; [|split; [|split]]]; try reflexivity; try lia.
  - intros j0 v0. rewrite lookup_empty. discriminate.
  - intros i' Hi'. assert (i' = 0) as -> by lia. simpl. lia.
Qed.

Lemma extend_left_same p : forall size,
  extend_left x x 0 0 p p size = mkMatch 0 0 (p + size).
Proof.
  induction p as [|p IH]; intros size; simpl; [reflexivity|].
  rewrite decide_True by (repeat split; lia).
  rewrite IH. f_equal. lia.
Qed.

Lemma extend_right_same gap : forall size,
  size + gap = n -> extend_right x x n 0 0 gap size = n.
Proof.
  induction gap as [|gap IH]; intros size Hn; simpl; [lia|].
  rewrite decide_True by (split; [lia | reflexivity]).
  apply IH. lia.
Qed.

Lemma find_longest_match_same :
  find_longest_match x x b2j 0 n 0 n = mkMatch 0 0 n.
Proof.
  unfold find_longest_match.
  destruct scan_rows_diagonal as (_ & _ & Hab & Hle & _).
  destruct (scan_rows x b2j 0 n 0 n).2 as [p q size]. simpl in *. subst q.
  rewrite extend_left_same. simpl.
  rewrite extend_right_same by lia. reflexivity.
Qed.
End same.

Lemma get_matching_blocks_same x :
  get_matching_blocks x x
  = (if decide (length x = 0) then [] else [mkMatch 0 0 (length x)])
    ++ [mkMatch (length x) (length x) 0].
Proof.
  unfold get_matching_blocks.
  replace (2 * length x + 1) with (S (2 * length x)) by lia.
  rewrite blocks_loop_step.
  rewrite (find_longest_match_same x (chain_b x) (chain_b_lookup x)).
  simpl m_size. simpl m_a. simpl m_b. cbv zeta.
  destruct (decide (length x = 0)) as [E|E].
  - destruct (2 * length x); reflexivity.
  - rewrite (decide_False (P := 0 < 0 /\ 0 < 0)) by lia.
    rewrite (decide_False (P := 0 + length x < length x
                                /\ 0 + length x < length x)) by lia.
    assert (forall fuel l, blocks_loop x x (chain_b x) fuel [] l = Some l)
      as -> by (intros [|fuel] l; reflexivity).
    simpl. rewrite decide_False by exact E. reflexivity.
Qed.

Lemma ratio_same x : (ratio x x == 1)%Q.
Proof.
  unfold ratio. rewrite get_matching_blocks_same. unfold calculate_ratio.
  destruct (decide (length x = 0)) as [E|E].
  - rewrite E. simpl. reflexivity.
  - rewrite decide_False by lia. simpl. rewrite Nat.add_0_r.
    unfold Qeq. simpl.
    assert (Z.pos (Pos.of_nat (length x + length x))
            = Z.of_nat (length x + length x)) as ->.
    { rewrite <- positive_nat_Z, Nat2Pos.id by lia. reflexivity. }
    lia.
Qed.

(** ** An empty sequence *)

Lemma blocks_loop_nil a b b2j fuel l :
  blocks_loop a b b2j fuel [] l = Some l.
Proof. destruct fuel; reflexivity. Qed.

Lemma get_matching_blocks_none a b :
  m_size (find_longest_match a b (chain_b b) 0 (length a) 0 (length b)) = 0 ->
  get_matching_blocks a b = [mkMatch (length a) (length b) 0].
Proof.
  intros Hk. unfold get_matching_blocks.
  replace (2 * length a + 1) with (S (2 * length a)) by lia.
  rewrite blocks_loop_step. cbv zeta.
  rewrite decide_True by exact Hk.
  rewrite blocks_loop_nil. reflexivity.
Qed.

Lemma find_longest_match_nil_l b b2j bhi :
  find_longest_match [] b b2j 0 0 0 bhi = mkMatch 0 0 0.
Proof. reflexivity. Qed.

Lemma scan_rows_no_key (a : str) len : forall start st,
  foldl (fun '(j2len, best) i =>
           scan_row i 0 0 j2len (b2j_get ∅ a i) ∅ best)
        st (seq start len)
  = match len with O => st | S _ => (∅, st.2) end.
Proof.
  induction len as [|len IH]; intros start st; simpl; [reflexivity|].
  rewrite IH. destruct st as [j2len best].
  assert (b2j_get ∅ a start = []) as ->.
  { unfold b2j_get. destruct (a !! start); [|reflexivity].
    rewrite lookup_empty. reflexivity. }
  simpl. destruct len; reflexivity.
Qed.

Lemma find_longest_match_nil_r a :
  m_size (find_longest_match a [] (chain_b []) 0 (length a) 0 0) = 0.
Proof.
  unfold find_longest_match, scan_rows.
  change (chain_b []) with (∅ : gmap N (list nat)).
  rewrite scan_rows_no_key.
  assert ((match length a - 0 with
           | O => (∅, mkMatch 0 0 0)
           | S _ => (∅, (∅ : gmap nat nat, mkMatch 0 0 0).2)
           end).2 = mkMatch 0 0 0) as -> by (destruct (length a - 0); reflexivity).
  simpl. destruct (length a - 0); reflexivity.
Qed.

Lemma ratio_nil_l b : ratio [] b = calculate_ratio 0 (length b).
Proof.
  unfold ratio. rewrite get_matching_blocks_none; reflexivity.
Qed.

Lemma ratio_nil_r a : ratio a [] = calculate_ratio 0 (length a).
Proof.
  unfold ratio. rewrite get_matching_blocks_none.
  - simpl. rewrite Nat.add_0_r. reflexivity.
  - apply find_longest_match_nil_r.
Qed.

(** ** [calculate_similarity] *)

Section similarity.
Context `{Unicode}.
Local Open Scope Q_scope.

(** C6 (as amended).  [calculate_similarity] gives the same score in both
    orders when the two strings normalize to the same text, or when one of
    them normalizes to the empty text. *)
Theorem calculate_similarity_symmetric_cases str1 str2 :
  normalize_text str1 = normalize_text str2
  \/ normalize_text str1 = [] \/ normalize_text str2 = [] ->
  calculate_similarity str1 str2 == calculate_similarity str2 str1.
Proof.
  unfold calculate_similarity. intros [E|[E|E]].
  - rewrite E. reflexivity.
  - rewrite E, ratio_nil_l, ratio_nil_r. reflexivity.
  - rewrite E, ratio_nil_l, ratio_nil_r. reflexivity.
Qed.

(** C8.  [calculate_similarity(x, x)] is 1.0 for every string [x], the
    empty one included; so is the ratio of two empty sequences. *)
Theorem calculate_similarity_same x :
  calculate_similarity x x == 1
  /\ calculate_similarity [] [] == 1
  /\ ratio [] [] == 1.
Proof.
  unfold calculate_similarity.
  split; [|split]; apply ratio_same.
Qed.
End similarity.

(** ** The loop of [transliterate_to_russian] ends *)

Lemma translit_at_length rest n ru :
  translit_at rest = Some (n, ru) -> 1 <= n.
Proof.
  unfold translit_at.
  repeat match goal with
         | |- context [decide ?P] => destruct (decide P)
         end;
    repeat match goal with
           | |- context [dict_get ?d ?k] => destruct (dict_get d k)
           end; simpl; intros E; inversion E; lia.
Qed.

Lemma translit_loop_fuel fuel : forall fuel' rest,
  length rest <= fuel -> length rest <= fuel' ->
  translit_loop fuel rest = translit_loop fuel' rest.
Proof.
  induction fuel as [|fuel IH]; intros fuel' rest Hf Hf'.
  - destruct rest; [|simpl in Hf; lia]. destruct fuel'; reflexivity.
  - destruct rest as [|c rest]; [destruct fuel'; reflexivity|].
    destruct fuel' as [|fuel']; [simpl in Hf'; lia|].
    cbn [translit_loop]. simpl in Hf, Hf'.
    destruct (translit_at (c :: rest)) as [[n ru]|] eqn:E.
    + apply translit_at_length in E. f_equal.
      apply IH; rewrite length_drop; simpl; lia.
    + f_equal. apply IH; lia.
Qed.

Section members.
Context `{Unicode}.
Local Open Scope Q_scope.

(** Where no entry raises, [match_author] returns [None] or an author of
    the catalog. *)
Lemma match_author_member self query threshold :
  Forall has_surname (authors self) ->
  match_author self query threshold = Ok None
  \/ exists author, author ∈ authors self
                    /\ match_author self query threshold = Ok (Some author).
Proof.
  intros Hs. unfold match_author.
  destruct (match_author_loop_spec self query (authors self)
              (mkRunning threshold None) Hs) as (st & -> & Hcase).
  simpl. destruct Hcase as [[-> _]|(l1 & a & l2 & Hl & Hm & _)]; [auto|].
  right. exists a. split.
  - rewrite Hl. apply elem_of_app. right. apply elem_of_cons. auto.
  - rewrite Hm. reflexivity.
Qed.

Lemma empty_catalog db query threshold top_k :
  match_author (mkMatcher [] db) query threshold = Ok None
  /\ find_all_matches (mkMatcher [] db) query threshold top_k = Ok [].
Proof.
  split; [reflexivity|]. unfold find_all_matches. simpl.
  unfold slice_to. destruct (decide _); rewrite take_nil; reflexivity.
Qed.
End members.

(** * The properties on concrete catalogs *)

Local Open Scope Q_scope.


(** A surname-only score of 10/14, between the threshold 0.6 and the floor
    0.8: the author is not selected. *)
Lemma surname_only_floor_witness :
  0.6 < calculate_similarity (u "abcdefghi") (u "abcde")
  /\ step_surname (u "abcdefghi") (u "zzzz abcde") (mkRunning 0.6 None)
     = Ok (mkRunning 0.6 None)
  /\ match_author (mkMatcher [u "zzzz abcde"]
                     (_build_translation_map [u "zzzz abcde"] ∅))
       (u "abcdefghi") 0.6 = Ok None.
Proof.
  split; [vm_compute; reflexivity|]. split; [|vm_compute; reflexivity].
  refine (proj1 (surname_only_floor (u "abcdefghi") (u "zzzz abcde")
                   (u "abcde") _ _) (mkRunning 0.6 None)).
  - vm_compute. reflexivity.
  - vm_compute. discriminate.
Defined.




(** ["tide"] and ["diet"]: one matching block in one order, two in the
    other. *)
Lemma calculate_similarity_asymmetric_counterexample :
  calculate_similarity (u "tide") (u "diet") = 2 # 8
  /\ calculate_similarity (u "diet") (u "tide") = 4 # 8
  /\ ~ calculate_similarity (u "tide") (u "diet")
       == calculate_similarity (u "diet") (u "tide").
Proof.
  split; [vm_compute; reflexivity|]. split; [vm_compute; reflexivity|].
  vm_compute. discriminate.
Defined.

Lemma calculate_similarity_symmetric_cases_witness :
  calculate_similarity (u "  ") (u "abc")
  == calculate_similarity (u "abc") (u "  ").
Proof.
  apply calculate_similarity_symmetric_cases.
  right. left. vm_compute. reflexivity.
Defined.

(** A catalog whose only entry is one space. *)
Lemma blank_entry_raises_witness :
  match_author (mkMatcher [u " "] ∅) (u "Pushkin") 0.6 = Raise IndexError
  /\ find_all_matches (mkMatcher [u " "] ∅) (u "Pushkin") 0.5 5
     = Raise IndexError.
Proof.
  apply (blank_entry_raises (mkMatcher [u " "] ∅) (u "Pushkin") 0.6 5 (u " ")).
  - simpl. apply list_elem_of_In. simpl. left. reflexivity.
  - vm_compute. reflexivity.
Defined.

(** A stored table without the author of the catalog, and a file that
    [json.load] rejects. *)
Lemma init_translation_table_counterexample :
  (exists self,
     __init__ (fun _ : unit => Loadable ∅) [u "Пушкин Александр"] (Some tt)
     = Ok self
     /\ u "Пушкин Александр" ∈ authors self
     /\ translation_db self !! u "Пушкин Александр" = None)
  /\ __init__ (fun _ : unit => Corrupt) [u "Пушкин Александр"] (Some tt)
     = Raise JSONDecodeError.
Proof.
  split; [|reflexivity].
  eexists. split; [reflexivity|]. split; [|reflexivity].
  simpl. apply list_elem_of_In. simpl. left. reflexivity.
Defined.

Lemma init_translation_table_witness :
  exists self,
    __init__ (fun _ : unit => Missing) [u "Пушкин Александр"] (Some tt)
    = Ok self
    /\ translation_db self !! u "Пушкин Александр"
       = Some (mkTrans (Some (u "Pushkin Alexander"))
                 (Some [u "Pushkin Alexander"])).
Proof.
  destruct (proj1 (init_translation_table (fun _ : unit => Missing)
                     [u "Пушкин Александр"] (Some tt)) eq_refl)
    as (self & Hinit & _ & Hentry).
  exists self. split; [exact Hinit|].
  destruct (Hentry (u "Пушкин Александр")) as [E _].
  - apply list_elem_of_In. simpl. left. reflexivity.
  - rewrite E. vm_compute. reflexivity.
Defined.




(** * More about [difflib]: the size of the matching blocks *)

Local Close Scope Q_scope.

Lemma sum_list_append (l1 l2 : list nat) :
  sum_list (l1 ++ l2) = sum_list l1 + sum_list l2.
Proof. induction l1 as [|x l1 IH]; simpl; lia. Qed.

Lemma blocks_size_app l1 l2 :
  blocks_size (l1 ++ l2) = blocks_size l1 + blocks_size l2.
Proof.
  unfold blocks_size. rewrite fmap_app. apply sum_list_append.
Qed.

Lemma blocks_size_perm l1 l2 : l1 ≡ₚ l2 -> blocks_size l1 = blocks_size l2.
Proof.
  unfold blocks_size. induction 1 as [|x l l' _ IH|x y l|l l' l'' _ IH1 _ IH2];
    rewrite ?fmap_cons; cbn [sum_list sum_list_with];
    rewrite ?fmap_cons; cbn [sum_list sum_list_with]; lia.
Qed.

Lemma blocks_size_cons x l : blocks_size (x :: l) = m_size x + blocks_size l.
Proof. reflexivity. Qed.

Lemma blocks_size_collapse blocks : forall i1 j1 k1,
  blocks_size (collapse i1 j1 k1 blocks) = k1 + blocks_size blocks.
Proof.
  induction blocks as [|x blocks IH]; intros i1 j1 k1; cbn [collapse].
  - destruct (decide (k1 = 0)) as [->|]; reflexivity.
  - rewrite blocks_size_cons. destruct (decide _).
    + rewrite IH. lia.
    + rewrite blocks_size_app, IH.
      destruct (decide (k1 = 0)) as [->|]; [reflexivity|].
      rewrite blocks_size_cons. unfold blocks_size at 1. simpl. lia.
Qed.

Lemma blocks_loop_room a b b2j fuel : forall queue matching_blocks found,
  Forall range_ok queue ->
  blocks_loop a b b2j fuel queue matching_blocks = Some found ->
  blocks_size found <= blocks_size matching_blocks + queue_room_a queue
  /\ blocks_size found <= blocks_size matching_blocks + queue_room_b queue.
Proof.
  induction fuel as [|fuel IH]; intros queue blocks found Hok Hrun.
  - destruct queue as [|[[[alo ahi] blo] bhi] queue]; cbn in Hrun;
      [|discriminate]. inversion Hrun; subst. lia.
  - destruct queue as [|[[[alo ahi] blo] bhi] queue];
      [cbn in Hrun; inversion Hrun; subst; lia|].
    inversion Hok as [|? ? Hr Hok']; subst. cbn in Hr.
    destruct Hr as [Ha Hb].
    pose proof (find_longest_match_within a b b2j alo ahi blo bhi Ha Hb)
      as Hin.
    rewrite blocks_loop_step in Hrun.
    destruct (find_longest_match a b b2j alo ahi blo bhi) as [i j k].
    unfold within in Hin. cbn [m_a m_b m_size] in *. cbv zeta in Hrun.
    cbn [queue_room_a queue_room_b].
    destruct (decide (k = 0)).
    + apply IH in Hrun; [lia | assumption].
    + apply IH in Hrun.
      * rewrite blocks_size_app, blocks_size_cons in Hrun.
        change (blocks_size []) with 0 in Hrun. cbn [m_size] in Hrun.
        repeat match type of Hrun with
               | context [decide ?P] => destruct (decide P)
               end; cbn [queue_room_a queue_room_b] in Hrun; lia.
      * repeat match goal with
               | |- context [decide ?P] => destruct (decide P)
               end; repeat constructor; cbn; try assumption; lia.
Qed.

Lemma get_matching_blocks_size a b :
  blocks_size (get_matching_blocks a b) <= length a
  /\ blocks_size (get_matching_blocks a b) <= length b.
Proof.
  unfold get_matching_blocks.
  destruct (blocks_loop a b (chain_b b) (2 * length a + 1)
              [(0, length a, 0, length b)] []) as [found|] eqn:E.
  - apply blocks_loop_room in E; [|repeat constructor; cbn; lia].
    rewrite blocks_size_app, blocks_size_collapse, blocks_size_cons.
    unfold difflib.sort.
    rewrite (blocks_size_perm _ _ (sort_by_perm match_le found)).
    change (blocks_size []) with 0 in *.
    cbn [queue_room_a queue_room_b m_size] in *. lia.
  - change (blocks_size []) with 0. lia.
Qed.

Lemma calculate_ratio_range matches len :
  2 * matches <= len ->
  (0 <= calculate_ratio matches len <= 1)%Q.
Proof.
  intros Hle. unfold calculate_ratio.
  destruct (decide (len = 0)); [split; discriminate|].
  unfold Qle. simpl.
  assert (Z.pos (Pos.of_nat len) = Z.of_nat len) as ->.
  { rewrite <- positive_nat_Z, Nat2Pos.id by assumption. reflexivity. }
  lia.
Qed.

Lemma ratio_range a b : (0 <= ratio a b <= 1)%Q.
Proof.
  unfold ratio. apply calculate_ratio_range.
  pose proof (get_matching_blocks_size a b) as [Ha Hb].
  unfold blocks_size in *. lia.
Qed.

(** * More about the matcher *)

Section scores.
Context `{Unicode}.
Local Open Scope Q_scope.

(** X1.  Every score of [calculate_similarity] lies between 0 and 1: the
    matching blocks are disjoint in both texts, so their total size is at
    most the length of each. *)
Theorem calculate_similarity_range str1 str2 :
  0 <= calculate_similarity str1 str2 <= 1.
Proof. apply ratio_range. Qed.

Lemma calculate_ratio_zero len : len <> 0%nat -> calculate_ratio 0 len == 0.
Proof.
  intros Hlen. unfold calculate_ratio. rewrite decide_False by exact Hlen.
  reflexivity.
Qed.

(** X2.  A text that normalizes to the empty text scores 0 against any
    text that does not, in both orders. *)
Theorem calculate_similarity_empty_side str1 str2 :
  normalize_text str1 = [] -> normalize_text str2 <> [] ->
  calculate_similarity str1 str2 == 0 /\ calculate_similarity str2 str1 == 0.
Proof.
  intros E Hne. unfold calculate_similarity. rewrite E.
  assert (length (normalize_text str2) <> 0%nat) as Hlen
    by (destruct (normalize_text str2); [congruence | discriminate]).
  rewrite ratio_nil_l, ratio_nil_r. split; apply calculate_ratio_zero, Hlen.
Qed.

Lemma translit_scores_range tq author :
  Forall (fun s => 0 <= s <= 1) (translit_scores tq author).
Proof.
  unfold translit_scores. destruct tq as [[|c tq]|]; try constructor.
  destruct (PyStr.split author); repeat constructor;
    apply ratio_range.
Qed.

Lemma english_scores_range db query author :
  Forall (fun s => 0 <= s <= 1) (english_scores db query author).
Proof.
  unfold english_scores. destruct (db !! author) as [td|]; [|constructor].
  apply Forall_app. split.
  - destruct (en td) as [e|]; [|constructor].
    constructor; [apply ratio_range|].
    destruct (PyStr.split e); repeat constructor; apply ratio_range.
  - apply Forall_fmap, Forall_forall. intros v _. apply ratio_range.
Qed.

Lemma candidate_scores_range db query tq author scores :
  candidate_scores db query tq author = Ok scores ->
  Forall (fun s => 0 <= s <= 1) scores.
Proof.
  unfold candidate_scores, surname_scores.
  destruct (author_surname author) as [surname|e]; [|discriminate].
  simpl. intros [= <-].
  apply Forall_app. split; [apply translit_scores_range|].
  constructor; [apply ratio_range|].
  apply Forall_app. split.
  { unfold ru_surname_scores. destruct (PyStr.split author);
      repeat constructor; apply ratio_range. }
  apply Forall_app. split; [apply english_scores_range|].
  destruct (Qlt_le_dec 0.8 _); repeat constructor; apply ratio_range.
Qed.

Lemma best_of_range self query author :
  0 <= best_of self query author <= 1.
Proof.
  unfold best_of, author_best.
  destruct (candidate_scores _ _ _ _) as [scores|e] eqn:E; simpl;
    [|split; discriminate].
  pose proof (candidate_scores_range _ _ _ _ _ E) as Hall.
  destruct scores as [|s scores]; [split; discriminate|].
  destruct (greatest_spec (s :: scores)) as [Hin _]; [discriminate|].
  rewrite Forall_forall in Hall. apply Hall, list_elem_of_In, Hin.
Qed.

Lemma best_of_above self query author score scores :
  candidate_scores (translation_db self) query (transliterated query) author
  = Ok scores ->
  score ∈ scores -> score <= best_of self query author.
Proof.
  intros E Hin. unfold best_of, author_best. rewrite E. simpl.
  destruct (greatest_spec scores) as [_ Hall].
  { intros ->. apply elem_of_nil in Hin as []. }
  rewrite Forall_forall in Hall. apply Hall. exact Hin.
Qed.

Lemma match_author_Ok_surnames self query threshold r :
  match_author self query threshold = Ok r ->
  Forall has_surname (authors self).
Proof.
  intros Hr. destruct (has_surname_all_dec (authors self)) as [Hs|Hex];
    [exact Hs|].
  unfold match_author in Hr.
  rewrite (match_author_loop_raise self query _ _ Hex) in Hr. discriminate.
Qed.

Lemma match_author_spec self query threshold :
  Forall has_surname (authors self) ->
  (match_author self query threshold = Ok None
   /\ Forall (fun x => best_of self query x <= threshold) (authors self))
  \/ (exists l1 a l2,
        authors self = l1 ++ a :: l2
        /\ match_author self query threshold = Ok (Some a)
        /\ threshold < best_of self query a
        /\ Forall (fun x => best_of self query x < best_of self query a) l1
        /\ Forall (fun x => best_of self query x <= best_of self query a) l2).
Proof.
  intros Hs. unfold match_author.
  destruct (match_author_loop_spec self query (authors self)
              (mkRunning threshold None) Hs) as (st & -> & Hcase).
  simpl. destruct Hcase as [[-> Hall]|(l1 & a & l2 & Hl & Hm & _ & Hlt & H1 & H2)].
  - left. split; [reflexivity | exact Hall].
  - right. exists l1, a, l2. rewrite Hm. auto.
Qed.

(** X3.  An author returned by [match_author] is an entry of the catalog
    whose best score is above the threshold and is not exceeded by the
    best score of any other entry. *)
Theorem match_author_best self query threshold author :
  match_author self query threshold = Ok (Some author) ->
  author ∈ authors self
  /\ threshold < best_of self query author
  /\ forall x, x ∈ authors self ->
       best_of self query x <= best_of self query author.
Proof.
  intros Hr. pose proof (match_author_Ok_surnames _ _ _ _ Hr) as Hs.
  destruct (match_author_spec self query threshold Hs)
    as [[Hn _]|(l1 & a & l2 & Hl & Hm & Hlt & H1 & H2)]; [congruence|].
  assert (a = author) as -> by congruence.
  split; [rewrite Hl; apply elem_of_app; right; apply elem_of_cons; auto|].
  split; [exact Hlt|].
  intros x Hx. rewrite Hl in Hx.
  apply elem_of_app in Hx as [Hx|Hx].
  - rewrite Forall_forall in H1. specialize (H1 x Hx). simpl in H1. lra.
  - apply elem_of_cons in Hx as [->|Hx]; [lra|].
    rewrite Forall_forall in H2. exact (H2 x Hx).
Qed.

(** X4.  [match_author] returns [None] only when no entry of the catalog
    has a best score above the threshold. *)
Theorem match_author_none_only_below self query threshold :
  match_author self query threshold = Ok None ->
  forall x, x ∈ authors self -> best_of self query x <= threshold.
Proof.
  intros Hr. pose proof (match_author_Ok_surnames _ _ _ _ Hr) as Hs.
  destruct (match_author_spec self query threshold Hs)
    as [[_ Hall]|(l1 & a & l2 & _ & Hm & _)]; [|congruence].
  rewrite Forall_forall in Hall. exact Hall.
Qed.

(** X5.  Lowering the threshold keeps the match: an author returned at a
    threshold is returned at every lower threshold too. *)
Theorem match_author_lower_threshold self query threshold threshold' author :
  threshold <= threshold' ->
  match_author self query threshold' = Ok (Some author) ->
  match_author self query threshold = Ok (Some author).
Proof.
  intros Hle Hr. pose proof (match_author_Ok_surnames _ _ _ _ Hr) as Hs.
  destruct (match_author_spec self query threshold' Hs)
    as [[Hn _]|(l1 & a & l2 & Hl & Hm & Hlt & H1 & H2)]; [congruence|].
  assert (a = author) as -> by congruence.
  unfold match_author. rewrite Hl in Hs |- *.
  destruct (match_author_loop_first self query l1 (mkRunning threshold None)
              author l2 Hs) as (st & -> & Hbm); auto.
  - simpl. lra.
  - simpl. rewrite Hbm. reflexivity.
Qed.

Lemma perfect_candidate self query threshold author scores :
  Forall has_surname (authors self) ->
  author ∈ authors self ->
  candidate_scores (translation_db self) query (transliterated query) author
  = Ok scores ->
  (exists s, s ∈ scores /\ s == 1) ->
  threshold < 1 ->
  exists author',
    author' ∈ authors self
    /\ match_author self query threshold = Ok (Some author')
    /\ best_of self query author' == 1.
Proof.
  intros Hs Hin Hc (s & Hsin & Hs1) Hlt.
  pose proof (best_of_above self query author s scores Hc Hsin) as Hge.
  destruct (match_author_spec self query threshold Hs)
    as [[_ Hall]|(l1 & a & l2 & Hl & Hm & Hlt' & H1 & H2)].
  - rewrite Forall_forall in Hall. specialize (Hall author Hin).
    simpl in Hall. lra.
  - exists a.
    assert (a ∈ authors self) as Ha
      by (rewrite Hl; apply elem_of_app; right; apply elem_of_cons; auto).
    split; [exact Ha|]. split; [exact Hm|].
    pose proof (best_of_range self query a) as [_ Hle1].
    assert (best_of self query author <= best_of self query a) as Hmax.
    { rewrite Hl in Hin. apply elem_of_app in Hin as [Hx|Hx].
      - rewrite Forall_forall in H1. specialize (H1 author Hx).
        simpl in H1. lra.
      - apply elem_of_cons in Hx as [->|Hx]; [lra|].
        rewrite Forall_forall in H2. exact (H2 author Hx). }
    lra.
Qed.

(** X6.  A query that normalizes like the name of a catalog entry is
    always resolved at a threshold below 1, to an entry with the perfect
    score 1 (on a catalog where no entry raises). *)
Theorem match_author_exact_name self query threshold author :
  Forall has_surname (authors self) ->
  author ∈ authors self ->
  normalize_text query = normalize_text author ->
  threshold < 1 ->
  exists author',
    author' ∈ authors self
    /\ match_author self query threshold = Ok (Some author')
    /\ best_of self query author' == 1.
Proof.
  intros Hs Hin Hn Hlt.
  rewrite Forall_forall in Hs. pose proof (Hs author Hin) as Hsa.
  rewrite <- Forall_forall in Hs.
  destruct (candidate_scores_Ok (translation_db self) query
              (transliterated query) author Hsa) as (scores & Hc & _).
  eapply perfect_candidate; try eassumption.
  exists (calculate_similarity query author). split.
  - unfold candidate_scores in Hc.
    destruct (surname_scores query author) as [g|]; [|discriminate].
    simpl in Hc. inversion Hc; subst.
    apply elem_of_app. right. apply elem_of_cons. auto.
  - unfold calculate_similarity. rewrite Hn. apply ratio_same.
Qed.

(** X7.  From Russian to English and back: the result of
    [get_english_name] for a catalog entry is resolved by [match_author]
    at any threshold below 1, to an entry with the perfect score 1. *)
Theorem match_author_english_name self threshold author :
  Forall has_surname (authors self) ->
  author ∈ authors self ->
  threshold < 1 ->
  exists author',
    author' ∈ authors self
    /\ match_author self (get_english_name self author) threshold
       = Ok (Some author')
    /\ best_of self (get_english_name self author) author' == 1.
Proof.
  intros Hs Hin Hlt.
  rewrite Forall_forall in Hs. pose proof (Hs author Hin) as Hsa.
  rewrite <- Forall_forall in Hs.
  set (query := get_english_name self author).
  destruct (candidate_scores_Ok (translation_db self) query
              (transliterated query) author Hsa) as (scores & Hc & _).
  eapply perfect_candidate; try eassumption.
  unfold candidate_scores in Hc.
  destruct (surname_scores query author) as [g|]; [|discriminate].
  simpl in Hc. inversion Hc; subst. clear Hc.
  unfold query, get_english_name, english_scores.
  destruct (translation_db self !! author) as [td|] eqn:Etd.
  - destruct (en td) as [e|] eqn:Ee; simpl.
    + exists (calculate_similarity e e). split; [|apply ratio_same].
      apply list_elem_of_In. repeat (rewrite ?in_app_iff; simpl).
      intuition auto.
    + exists (calculate_similarity author author). split; [|apply ratio_same].
      apply list_elem_of_In. repeat (rewrite ?in_app_iff; simpl).
      intuition auto.
  - exists (calculate_similarity author author). split; [|apply ratio_same].
    apply list_elem_of_In. repeat (rewrite ?in_app_iff; simpl).
    intuition auto.
Qed.
End scores.

(** * More about [find_all_matches] and the translation table *)

Section find_all_more.
Context `{Unicode}.
Local Open Scope Q_scope.

Lemma pymax_ge_l x y : x <= pymax x y.
Proof. unfold pymax. destruct (Qlt_le_dec x y); lra. Qed.

Lemma foldl_pymax_ge query variants : forall m,
  m <= foldl (fun m v => pymax m (calculate_similarity query v)) m variants.
Proof.
  induction variants as [|v variants IH]; intros m; simpl; [lra|].
  pose proof (pymax_ge_l m (calculate_similarity query v)).
  specialize (IH (pymax m (calculate_similarity query v))). simpl in IH. lra.
Qed.

Lemma named_max_score_nonneg db query author :
  0 <= named_max_score db query author.
Proof.
  unfold named_max_score.
  pose proof (pymax_ge_l 0 (calculate_similarity query author)) as H0.
  destruct (db !! author) as [td|]; [|exact H0].
  match goal with
  | |- _ <= foldl ?f ?m ?vs => pose proof (foldl_pymax_ge query vs m) as Hf
  end.
  simpl in Hf. destruct (en td) as [e|].
  - pose proof (pymax_ge_l (pymax 0 (calculate_similarity query author))
                  (calculate_similarity query e)). lra.
  - lra.
Qed.

Lemma author_max_score_nonneg db query author s :
  author_max_score db query author = Ok s -> 0 <= s.
Proof.
  unfold author_max_score.
  destruct (author_surname author) as [surname|e]; [|discriminate].
  simpl. pose proof (named_max_score_nonneg db query author) as Hn.
  destruct (Qlt_le_dec 0.8 _); intros [= <-]; [|exact Hn].
  pose proof (pymax_ge_l (named_max_score db query author)
                (calculate_similarity query surname)). lra.
Qed.

Lemma find_all_matches_Ok_surnames self query threshold top_k matches :
  find_all_matches self query threshold top_k = Ok matches ->
  Forall has_surname (authors self).
Proof.
  intros Hr. destruct (has_surname_all_dec (authors self)) as [Hs|Hex];
    [exact Hs|].
  unfold find_all_matches in Hr.
  rewrite (find_all_matches_loop_raise _ _ _ _ _ Hex) in Hr. discriminate.
Qed.

Lemma find_all_matches_unfold self query threshold top_k :
  Forall has_surname (authors self) ->
  find_all_matches self query threshold top_k
  = Ok (slice_to (sort_matches (qualifying self query threshold)) top_k).
Proof.
  intros Hs. unfold find_all_matches.
  rewrite (find_all_matches_loop_spec self) by exact Hs. reflexivity.
Qed.

Lemma max_score_of_nonneg self query author :
  0 <= max_score_of self query author.
Proof.
  unfold max_score_of.
  destruct (author_max_score _ _ _) as [s|e] eqn:E; [|lra].
  eapply author_max_score_nonneg, E.
Qed.

Lemma qualifying_all self query threshold :
  threshold <= 0 ->
  qualifying self query threshold
  = (fun author => (author, max_score_of self query author)) <$> authors self.
Proof.
  intros Ht. unfold qualifying.
  induction (authors self) as [|a l IH]; [reflexivity|].
  rewrite fmap_cons. cbn [List.filter]. rewrite IH.
  pose proof (max_score_of_nonneg self query a) as Hn.
  destruct (Qle_bool threshold (a, max_score_of self query a).2) eqn:E;
    [reflexivity|].
  apply Qle_bool_false in E. simpl in E. lra.
Qed.

(** X8.  With a threshold of 0 or less and [top_k] at least the size of
    the catalog, [find_all_matches] returns every entry of the catalog
    once for each time it occurs: [max_score] starts at 0.0 and never
    goes below. *)
Theorem find_all_matches_everyone self query threshold top_k :
  Forall has_surname (authors self) ->
  threshold <= 0 ->
  (Z.of_nat (length (authors self)) <= top_k)%Z ->
  exists matches,
    find_all_matches self query threshold top_k = Ok matches
    /\ matches.*1 ≡ₚ authors self.
Proof.
  intros Hs Ht Hk. eexists. split; [apply find_all_matches_unfold, Hs|].
  assert (length (sort_matches (qualifying self query threshold))
          = length (authors self)) as Hlen.
  { rewrite (Permutation_length (sort_matches_perm _)).
    rewrite qualifying_all by exact Ht. apply length_fmap. }
  unfold slice_to. rewrite decide_True by lia.
  rewrite take_ge by lia.
  rewrite sort_matches_perm, qualifying_all by exact Ht.
  rewrite <- list_fmap_compose.
  assert (forall l : list str,
            (fst ∘ (fun author => (author, max_score_of self query author)))
              <$> l = l) as ->; [|reflexivity].
  induction l as [|a l IH]; [reflexivity|].
  rewrite fmap_cons, IH. reflexivity.
Qed.

(** X9.  Every pair [find_all_matches] returns is a catalog entry with its
    [max_score], and that score is at least the threshold and between 0
    and 1. *)
Theorem find_all_matches_scores self query threshold top_k matches author s :
  find_all_matches self query threshold top_k = Ok matches ->
  (author, s) ∈ matches ->
  author ∈ authors self
  /\ author_max_score (translation_db self) query author = Ok s
  /\ threshold <= s /\ 0 <= s <= 1.
Proof.
  intros Hr Hin.
  pose proof (find_all_matches_Ok_surnames _ _ _ _ _ Hr) as Hs.
  rewrite find_all_matches_unfold in Hr by exact Hs.
  inversion Hr; subst. clear Hr.
  apply slice_to_sublist in Hin. rewrite sort_matches_perm in Hin.
  apply qualifying_elem in Hin as (Ha & Hm & Hle); [|exact Hs].
  split; [exact Ha|]. split; [exact Hm|]. split; [exact Hle|].
  split; [eapply author_max_score_nonneg, Hm|].
  destruct (author_max_score_choice self query author s Hm)
    as [->|(c & _ & ->)]; [lra|].
  apply ratio_range.
Qed.
End find_all_more.

(** X10.  [_build_translation_map] keeps every entry the table already
    has, adds an entry exactly for the authors of the list that had none,
    and changes nothing when it is run a second time. *)
Theorem build_translation_map_keys author_list db :
  (forall k td, db !! k = Some td ->
     _build_translation_map author_list db !! k = Some td)
  /\ (forall k, is_Some (_build_translation_map author_list db !! k)
               <-> is_Some (db !! k) \/ k ∈ author_list)
  /\ _build_translation_map author_list
       (_build_translation_map author_list db)
     = _build_translation_map author_list db.
Proof.
  split; [|split].
  - intros k td E. rewrite build_translation_map_lookup, E. reflexivity.
  - intros k. rewrite build_translation_map_lookup.
    destruct (db !! k) as [td|].
    + split; [intros _; left; eauto | intros _; eauto].
    + destruct (decide (k ∈ author_list)) as [Hin|Hnin].
      * split; [auto | intros _; eauto].
      * split; [intros [? ?]; discriminate|].
        intros [[? ?]|?]; [discriminate | contradiction].
  - apply map_eq. intros k. rewrite !build_translation_map_lookup.
    destruct (db !! k) as [td|]; [reflexivity|].
    destruct (decide (k ∈ author_list)); reflexivity.
Qed.

(** * Words: [split] and [join] *)

Lemma split_aux_word w : forall cur s,
  forallb (fun c => negb (PyStr.isspace c)) w = true ->
  PyStr.split_aux cur (w ++ s) = PyStr.split_aux (reverse w ++ cur) s.
Proof.
  induction w as [|c w IH]; intros cur s Hw; [reflexivity|].
  simpl in Hw. apply andb_true_iff in Hw as [Hc Hw].
  apply negb_true_iff in Hc. simpl. rewrite Hc.
  rewrite IH by exact Hw. rewrite reverse_cons, <- app_assoc. reflexivity.
Qed.

Lemma split_join parts :
  Forall is_word parts ->
  PyStr.split (PyStr.join (u " ") parts) = parts.
Proof.
  unfold PyStr.split.
  induction parts as [|p parts IH]; intros Hall; [reflexivity|].
  inversion Hall as [|? ? [Hne Hw] Hall']; subst.
  destruct parts as [|q parts].
  - simpl. rewrite <- (app_nil_r p) at 1.
    rewrite split_aux_word by exact Hw. simpl. rewrite app_nil_r.
    destruct (reverse p) eqn:E.
    + apply (f_equal reverse) in E. rewrite reverse_involutive in E.
      contradiction.
    + rewrite <- E, reverse_involutive. reflexivity.
  - change (PyStr.join (u " ") (p :: q :: parts))
      with (p ++ u " " ++ PyStr.join (u " ") (q :: parts)).
    rewrite split_aux_word by exact Hw. rewrite app_nil_r.
    change (u " ") with [32%N]. simpl.
    destruct (reverse p) eqn:E.
    + apply (f_equal reverse) in E. rewrite reverse_involutive in E.
      contradiction.
    + rewrite <- E, reverse_involutive. f_equal. apply IH. exact Hall'.
Qed.

Lemma split_aux_words s : forall cur,
  forallb (fun c => negb (PyStr.isspace c)) cur = true ->
  Forall is_word (PyStr.split_aux cur s).
Proof.
  assert (forall cur : str,
            cur <> [] ->
            forallb (fun c => negb (PyStr.isspace c)) cur = true ->
            is_word (reverse cur)) as Hrev.
  { intros cur Hne Hw. split.
    - intros E. apply Hne. apply (f_equal reverse) in E.
      rewrite reverse_involutive in E. exact E.
    - rewrite forallb_reverse. exact Hw. }
  induction s as [|c s IH]; intros cur Hcur; simpl.
  - destruct cur as [|c0 cur]; [constructor|].
    constructor; [|constructor]. apply Hrev; [discriminate | exact Hcur].
  - destruct (PyStr.isspace c) eqn:Ec.
    + destruct cur as [|c0 cur]; [apply IH; reflexivity|].
      constructor; [apply Hrev; [discriminate | exact Hcur]|].
      apply IH. reflexivity.
    + apply IH. simpl. rewrite Ec. exact Hcur.
Qed.

Lemma split_words s : Forall is_word (PyStr.split s).
Proof. apply split_aux_words. reflexivity. Qed.

Lemma dict_get_elem d key v : dict_get d key = Some v -> (key, v) ∈ d.
Proof.
  unfold dict_get. destruct (List.find _ d) as [[k v']|] eqn:E; [|discriminate].
  simpl. intros [= <-]. apply find_some in E as [Hin Hk].
  apply bool_decide_eq_true in Hk. simpl in Hk. subst k.
  apply list_elem_of_In. exact Hin.
Qed.

Lemma common_translations_words :
  Forall (fun kv : str * str => is_word kv.2) common_translations.
Proof.
  apply Forall_forall. intros kv Hin. apply list_elem_of_In in Hin.
  unfold common_translations in Hin. simpl in Hin.
  repeat (destruct Hin as [<-|Hin]; [split; [discriminate | reflexivity]|]).
  destruct Hin.
Qed.

(** X11.  The English rendering [_build_translation_map] synthesizes has
    the parts of the Russian name, in the same order: each part is
    replaced by its entry in the dictionary of known names, or kept as it
    is when it has none. *)
Theorem transliterate_to_english_parts russian_name :
  PyStr.split (_transliterate_to_english russian_name common_translations)
  = (fun part => default part (dict_get common_translations part))
      <$> PyStr.split russian_name.
Proof.
  unfold _transliterate_to_english. apply split_join.
  apply Forall_fmap. eapply Forall_impl; [apply split_words|].
  intros part Hpart. simpl.
  destruct (dict_get common_translations part) as [v|] eqn:E; [|exact Hpart].
  simpl. apply dict_get_elem in E.
  pose proof common_translations_words as Hall.
  rewrite Forall_forall in Hall. exact (Hall _ E).
Qed.
